(** * Paragraph extraction of epub.js' Rendition (src/rendition.js)

    A shallow embedding of [getCurrentViewText], [getCurrentViewParagraphs],
    [_getParagraphsFromRange], [_getTextNodesInRange] and
    [_findContainingBlockElement], over a model of the DOM interfaces they
    call (Range, TreeWalker, Node), followed by the properties of the
    specification that hold or fail on them; then
    [determineLayoutProperties], [flow], [direction], [located],
    [currentLocation], [reportLocation] and [highlightElement], with
    further properties of all of these. *)

From Stdlib Require Import Ascii String.
From stdpp Require Import base option list strings pretty sorting.

(** ** JavaScript strings

    A string is a sequence of code units; one [ascii] stands for one code
    unit below 256. *)
Module Js.

(** White space of [String.prototype.trim] and of the regular expression
    class [\s], among the code units below 256: TAB, LF, VT, FF, CR, SP and
    NBSP. *)
Definition isWhiteSpace (c : ascii) : bool :=
  let n := nat_of_ascii c in
  ((9 <=? n) && (n <=? 13) || (n =? 32) || (n =? 160))%nat.

Fixpoint trimStart (s : string) : string :=
  match s with
  | EmptyString => EmptyString
  | String c s' => if isWhiteSpace c then trimStart s' else s
  end.

Fixpoint trimEnd (s : string) : string :=
  match s with
  | EmptyString => EmptyString
  | String c s' =>
      match trimEnd s' with
      | EmptyString => if isWhiteSpace c then EmptyString else String c EmptyString
      | t => String c t
      end
  end.

Definition trim (s : string) : string := trimEnd (trimStart s).

(** [s.substring(a, b)]: both indices are clamped to the length and swapped
    when [a > b]. *)
Definition substring (s : string) (a b : nat) : string :=
  let a' := a `min` String.length s in
  let b' := b `min` String.length s in
  String.substring (a' `min` b') ((a' `max` b') - (a' `min` b')) s.

(** [s.substring(a)]. *)
Definition substringFrom (s : string) (a : nat) : string :=
  substring s a (String.length s).

(** [!s] on a string: only the empty string is falsy. *)
Definition falsy (s : string) : bool :=
  match s with EmptyString => true | _ => false end.

(** [s.replace(/\s+/g, " ")]: every maximal run of white space becomes one
    space. *)
Fixpoint collapseWhiteSpace (s : string) : string :=
  match s with
  | EmptyString => EmptyString
  | String c s' =>
      if isWhiteSpace c then
        match s' with
        | String d _ =>
            if isWhiteSpace d then collapseWhiteSpace s'
            else String " " (collapseWhiteSpace s')
        | EmptyString => String " " EmptyString
        end
      else String c (collapseWhiteSpace s')
  end.

(** The normalisation the tests apply before comparing texts:
    [s.replace(/\s+/g, " ").trim()]. *)
Definition normalize (s : string) : string := trim (collapseWhiteSpace s).

(** A string that is empty or holds white space only. *)
Fixpoint isBlank (s : string) : bool :=
  match s with
  | EmptyString => true
  | String c s' => isWhiteSpace c && isBlank s'
  end.

(** [xs.join(sep)]. *)
Fixpoint join (sep : string) (xs : list string) : string :=
  match xs with
  | [] => EmptyString
  | [x] => x
  | x :: xs' => x +:+ sep +:+ join sep xs'
  end.

End Js.

(** ** The DOM tree

    A document is a tree whose root is the Document node; a node is referred
    to by the child indices that lead to it from the root, so that two
    references are the same node exactly when they are equal lists. *)
#[warnings="-register-all"] Inductive Node : Type :=
| Text (data : string)
| Element (tagName : string) (childNodes : list Node).

Definition NodeRef : Type := list nat.

Fixpoint nodeAt (n : Node) (r : NodeRef) : option Node :=
  match r with
  | [] => Some n
  | i :: r' =>
      match n with
      | Text _ => None
      | Element _ cs => c ← cs !! i; nodeAt c r'
      end
  end.

(** [node.length]: the number of code units of a Text node, the number of
    children of any other node. *)
Definition nodeLength (n : Node) : nat :=
  match n with
  | Text d => String.length d
  | Element _ cs => length cs
  end.

(** [node.textContent], or the empty string, as the source reads it on
    Text nodes. *)
Definition textContent (doc : Node) (r : NodeRef) : string :=
  match nodeAt doc r with
  | Some (Text d) => d
  | _ => EmptyString
  end.

Definition isText (doc : Node) (r : NodeRef) : bool :=
  match nodeAt doc r with Some (Text _) => true | _ => false end.

Definition parentNode (r : NodeRef) : option NodeRef :=
  match r with
  | [] => None
  | _ => Some (removelast r)
  end.

(** [node.parentElement]: the parent, unless it is the Document. *)
Definition parentElement (r : NodeRef) : option NodeRef :=
  match parentNode r with
  | Some [] => None
  | p => p
  end.

(** [node.ownerDocument]: null on the Document itself. *)
Definition ownerDocument (r : NodeRef) : option NodeRef :=
  match r with
  | [] => None
  | _ => Some []
  end.

(** The references collected below the children [cs] of a node, the first
    of which has index [i]: those of each child, behind the child's index. *)
Definition belowChildren (collect : Node → list NodeRef) : nat → list Node → list NodeRef :=
  fix children (i : nat) (cs : list Node) : list NodeRef :=
    match cs with
    | [] => []
    | c :: cs' => ((i ::.) <$> collect c) ++ children (S i) cs'
    end.

(** The Text nodes of the subtree of [n], in tree order, each by its
    reference relative to [n]. *)
Fixpoint textNodesOf (n : Node) : list NodeRef :=
  match n with
  | Text _ => [[]]
  | Element _ cs => belowChildren textNodesOf 0 cs
  end.

(** ** Boundary points and ranges *)

Definition BoundaryPoint : Type := NodeRef * nat.

Fixpoint lexCompare (a b : list nat) : comparison :=
  match a, b with
  | [], [] => Eq
  | [], _ :: _ => Lt
  | _ :: _, [] => Gt
  | x :: a', y :: b' =>
      match x ?= y with
      | Eq => lexCompare a' b'
      | c => c
      end
  end.

(** The position of boundary point [a] relative to [b] (before, equal,
    after).  The DOM defines it by cases on whether one node is an ancestor
    of the other and on the index of the child that leads to it; on
    references that is the lexicographic comparison of the reference
    followed by the offset. *)
Definition position (a b : BoundaryPoint) : comparison :=
  lexCompare (a.1 ++ [a.2]) (b.1 ++ [b.2]).

Definition isBefore (a b : BoundaryPoint) : bool :=
  match position a b with Lt => true | _ => false end.

Definition isAfter (a b : BoundaryPoint) : bool :=
  match position a b with Gt => true | _ => false end.

Record Range : Type := mkRange {
  startContainer : NodeRef;
  startOffset : nat;
  endContainer : NodeRef;
  endOffset : nat
}.

Definition rangeStart (r : Range) : BoundaryPoint := (startContainer r, startOffset r).
Definition rangeEnd (r : Range) : BoundaryPoint := (endContainer r, endOffset r).

(** ** Exceptions

    A JavaScript expression either completes with a value or throws. *)
Inductive Exc (A : Type) : Type :=
| Return (a : A)
| Throw.
Arguments Return {A} a.
Arguments Throw {A}.

#[global] Instance Exc_ret : MRet Exc := fun A a => Return a.
#[global] Instance Exc_bind : MBind Exc := fun A B f m =>
  match m with
  | Return a => f a
  | Throw => Throw
  end.

(** [try { body } catch (e) { handler }], where the handler returns a value. *)
Definition tryCatch {A : Type} (body : Exc A) (handler : A) : A :=
  match body with
  | Return a => a
  | Throw => handler
  end.

(** ** The Range interface of the DOM *)

(** [document.createRange()]: collapsed at the start of the Document. *)
Definition createRange : Range := mkRange [] 0 [] 0.

(** [range.setStart(node, offset)]: IndexSizeError when the offset exceeds
    the node's length; when the new start is after the range's end, the end
    moves to it as well. *)
Definition setStart (doc : Node) (r : Range) (node : NodeRef) (offset : nat) : Exc Range :=
  match nodeAt doc node with
  | None => Throw
  | Some n =>
      if (nodeLength n <? offset)%nat then Throw
      else if isAfter (node, offset) (rangeEnd r)
           then Return (mkRange node offset node offset)
           else Return (mkRange node offset (endContainer r) (endOffset r))
  end.

(** [range.setEnd(node, offset)]: when the new end is before the range's
    start, the start moves to it as well. *)
Definition setEnd (doc : Node) (r : Range) (node : NodeRef) (offset : nat) : Exc Range :=
  match nodeAt doc node with
  | None => Throw
  | Some n =>
      if (nodeLength n <? offset)%nat then Throw
      else if isBefore (node, offset) (rangeStart r)
           then Return (mkRange node offset node offset)
           else Return (mkRange (startContainer r) (startOffset r) node offset)
  end.

Fixpoint commonPrefix (a b : NodeRef) : NodeRef :=
  match a, b with
  | x :: a', y :: b' => if decide (x = y) then x :: commonPrefix a' b' else []
  | _, _ => []
  end.

(** [range.commonAncestorContainer]: the deepest node that is an inclusive
    ancestor of both containers. *)
Definition commonAncestorContainer (r : Range) : NodeRef :=
  commonPrefix (startContainer r) (endContainer r).

(** A node is contained in a range when it starts after the range's start
    and ends before the range's end. *)
Definition contained (doc : Node) (r : Range) (node : NodeRef) : bool :=
  match nodeAt doc node with
  | None => false
  | Some n => isAfter (node, 0) (rangeStart r) && isBefore (node, nodeLength n) (rangeEnd r)
  end.

(** [range.toString()]: the data of the Text nodes the range contains, in
    tree order, with the part of a boundary Text node that lies inside the
    range before and after them. *)
Definition rangeToString (doc : Node) (r : Range) : string :=
  if bool_decide (startContainer r = endContainer r) && isText doc (startContainer r) then
    String.substring (startOffset r) (endOffset r - startOffset r)
      (textContent doc (startContainer r))
  else
    (if isText doc (startContainer r)
     then Js.substringFrom (textContent doc (startContainer r)) (startOffset r)
     else EmptyString)
    +:+ String.concat EmptyString (textContent doc <$> filter (λ t, contained doc r t) (textNodesOf doc))
    +:+ (if isText doc (endContainer r)
         then Js.substring (textContent doc (endContainer r)) 0 (endOffset r)
         else EmptyString).

(** [range.intersectsNode(node)]. *)
Definition intersectsNode (r : Range) (node : NodeRef) : bool :=
  match parentNode node with
  | None => true
  | Some parent =>
      let offset := List.last node 0 in
      isBefore (parent, offset) (rangeEnd r) && isAfter (parent, offset + 1) (rangeStart r)
  end.

(** The nodes that the successive calls of [nextNode()] return on a
    TreeWalker created with [NodeFilter.SHOW_TEXT] and the filter
    [acceptNode]: the Text nodes below [root] that the filter accepts, in
    tree order.  The root itself is never returned, so a walker rooted at a
    Text node returns nothing. *)
Definition treeWalkerTextNodes (doc : Node) (root : NodeRef)
    (acceptNode : NodeRef → bool) : list NodeRef :=
  match nodeAt doc root with
  | Some (Element _ _ as n) => filter (λ t, acceptNode t) ((root ++.) <$> textNodesOf n)
  | _ => []
  end.

(** [element.matches(selectors)] for a list of type selectors. *)
Definition matches (doc : Node) (element : NodeRef) (selectors : list string) : bool :=
  match nodeAt doc element with
  | Some (Element tag _) => bool_decide (tag ∈ selectors)
  | _ => false
  end.

(** ** Rendition: the objects the methods read *)

(** An entry of the array [_getParagraphsFromRange] returns. *)
Record Paragraph : Type := mkParagraph {
  text : string;
  cfiRange : string
}.

(** The result of [getCurrentViewText]. *)
Record ViewText : Type := mkViewText {
  vtText : string;
  startCfi : string;
  endCfi : string
}.

(** [view.contents]: the document of the view and [cfiFromRange], which
    builds the EpubCFI of a range and may throw; its result is taken after
    [toString()]. *)
Record Contents : Type := mkContents {
  document : option Node;
  cfiFromRange : Range → Exc string
}.

Record View : Type := mkView {
  contents : option Contents
}.

(** [mapping.start] and [mapping.end]: a CFI string, or undefined. *)
Record Mapping : Type := mkMapping {
  mappingStart : option string;
  mappingEnd : option string
}.

(** An entry of [manager.currentLocation()]. *)
Record LocatedSection : Type := mkLocatedSection {
  index : nat;
  mapping : option Mapping
}.

(** The manager: [currentLocation()] returns an array of located sections
    (or nothing), and [views.find({ index })] looks a view up by the index
    of its section. *)
Record Manager : Type := mkManager {
  currentLocation : option (list (option LocatedSection));
  viewsFind : nat → option View
}.

Record Rendition : Type := mkRendition {
  manager : option Manager
}.

(** [options] of [getCurrentViewParagraphs]. *)
Record Options : Type := mkOptions {
  optMinLength : option nat
}.

(** A string-valued property that is truthy: present and not empty. *)
Definition truthyString (s : option string) : option string :=
  match s with
  | Some s' => if Js.falsy s' then None else Some s'
  | None => None
  end.

(** ** A JavaScript [Map] keyed by node identity

    Entries are kept in insertion order, which is the order [for ... of]
    visits them in. *)
Definition NodeMap (V : Type) : Type := list (NodeRef * V).

Fixpoint Map_get {V : Type} (m : NodeMap V) (k : NodeRef) : option V :=
  match m with
  | [] => None
  | (k', v) :: m' => if decide (k' = k) then Some v else Map_get m' k
  end.

Definition Map_has {V : Type} (m : NodeMap V) (k : NodeRef) : bool :=
  match Map_get m k with Some _ => true | None => false end.

Fixpoint Map_set {V : Type} (m : NodeMap V) (k : NodeRef) (v : V) : NodeMap V :=
  match m with
  | [] => [(k, v)]
  | (k', v') :: m' => if decide (k' = k) then (k', v) :: m' else (k', v') :: Map_set m' k v
  end.

(** ** [_findContainingBlockElement] *)

Definition blockSelectors : list string :=
  ["p"; "div"; "h1"; "h2"; "h3"; "h4"; "h5"; "h6"; "li"; "blockquote"; "pre";
   "article"; "section"; "aside"; "header"; "footer"; "main"; "nav"; "figure";
   "figcaption"; "dd"; "dt"]%string.

(** The [while (element)] loop; every turn moves to the parent, so the
    depth of the first element bounds the number of turns. *)
Fixpoint findBlockLoop (doc : Node) (turns : nat) (element : option NodeRef) : option NodeRef :=
  match element with
  | None => None
  | Some e =>
      if matches doc e blockSelectors then Some e
      else match turns with
           | O => None
           | S turns' => findBlockLoop doc turns' (parentElement e)
           end
  end.

Definition _findContainingBlockElement (doc : Node) (textNode : NodeRef) : option NodeRef :=
  findBlockLoop doc (length textNode) (parentElement textNode).

(** ** [_getTextNodesInRange] *)

Definition _getTextNodesInRange (doc : Node) (range : Range) : list NodeRef :=
  match ownerDocument (commonAncestorContainer range) with
  | None => []
  | Some _ =>
      treeWalkerTextNodes doc (commonAncestorContainer range) (intersectsNode range)
  end.

(** ** [_getParagraphsFromRange] *)

(** The first loop: the Text nodes grouped under their containing block
    element. *)
Definition groupTextNode (doc : Node) (m : NodeMap (list NodeRef)) (textNode : NodeRef)
    : NodeMap (list NodeRef) :=
  match _findContainingBlockElement doc textNode with
  | Some blockElement =>
      let m1 := if Map_has m blockElement then m else Map_set m blockElement [] in
      Map_set m1 blockElement (default [] (Map_get m1 blockElement) ++ [textNode])
  | None => m
  end.

Definition blockElementToTextNodes (doc : Node) (textNodes : list NodeRef)
    : NodeMap (list NodeRef) :=
  foldl (groupTextNode doc) [] textNodes.

(** The variables of the loop over the Text nodes of one block element. *)
Record GroupVars : Type := mkGroupVars {
  elementText : string;
  firstTextNode : option NodeRef;
  lastTextNode : option NodeRef;
  firstTextOffset : nat;
  lastTextOffset : nat
}.

Definition groupVarsInit : GroupVars := mkGroupVars EmptyString None None 0 0.

(** One turn of that loop. *)
Definition groupStep (doc : Node) (range : Range) (v : GroupVars) (textNode : NodeRef)
    : GroupVars :=
  let nodeText := textContent doc textNode in
  let first := match firstTextNode v with None => Some textNode | f => f end in
  let last := Some textNode in
  if bool_decide (textNode = startContainer range) then
    mkGroupVars (elementText v +:+ Js.substringFrom nodeText (startOffset range))
      first last (startOffset range) (lastTextOffset v)
  else if bool_decide (textNode = endContainer range) then
    mkGroupVars (elementText v +:+ Js.substring nodeText 0 (endOffset range))
      first last (firstTextOffset v) (endOffset range)
  else
    mkGroupVars (elementText v +:+ nodeText)
      first last
      (if bool_decide (first = None ∨ first = Some textNode) then 0 else firstTextOffset v)
      (String.length nodeText).

(** The range [paragraphRange] built for a group, from the variables the
    loop leaves. *)
Definition paragraphRange (doc : Node) (v : GroupVars) (first last : NodeRef) : Exc Range :=
  r ← setStart doc createRange first (firstTextOffset v);
  setEnd doc r last (lastTextOffset v).

(** The body of the second loop for one entry of the map: the paragraph it
    pushes, or nothing when the entry is skipped ([continue], also from the
    [catch]). *)
Definition paragraphOfGroup (doc : Node) (range : Range) (contents : Contents)
    (textNodes : list NodeRef) : option Paragraph :=
  tryCatch
    (let v := foldl (groupStep doc range) groupVarsInit textNodes in
     let elementText := Js.trim (elementText v) in
     match firstTextNode v, lastTextNode v with
     | Some first, Some last =>
         if Js.falsy elementText then Return None
         else
           r ← paragraphRange doc v first last;
           cfi ← cfiFromRange contents r;
           Return (Some (mkParagraph elementText cfi))
     | _, _ => Return None
     end)
    None.

(** [_getParagraphsFromRange(range, contents)], with the document of the
    range passed along.  Nothing outside the second loop throws in this
    model, so the outer [catch] has no case of its own. *)
Definition _getParagraphsFromRange (doc : Node) (range : Range) (contents : Contents)
    : list Paragraph :=
  let fullText := rangeToString doc range in
  if Js.falsy (Js.trim fullText) then []
  else
    match ownerDocument (commonAncestorContainer range) with
    | None => []
    | Some _ =>
        let textNodes := _getTextNodesInRange doc range in
        if bool_decide (length textNodes = 0) then []
        else
          omap (λ entry, paragraphOfGroup doc range contents entry.2)
            (blockElementToTextNodes doc textNodes)
    end.

(** ** [getCurrentViewText] and [getCurrentViewParagraphs]

    The EpubCFI class is a collaborator: [new EpubCFI(str)] may throw, and
    [cfi.toRange(document)] returns a range, returns null or throws. *)
Section CurrentView.

Variable CFI : Type.
Variable newEpubCFI : string → Exc CFI.
Variable toRange : CFI → Node → Exc (option Range).

(** The statements both methods share inside their [try]: the range
    that encompasses the visible content, or null when one of the two
    locations resolves to nothing. *)
Definition visibleRange (doc : Node) (start end_ : string) : Exc (option Range) :=
  startCfi ← newEpubCFI start;
  endCfi ← newEpubCFI end_;
  startRange ← toRange startCfi doc;
  endRange ← toRange endCfi doc;
  match startRange, endRange with
  | Some startRange, Some endRange =>
      range ← setStart doc createRange (startContainer startRange) (startOffset startRange);
      range ← setEnd doc range (endContainer endRange) (endOffset endRange);
      Return (Some range)
  | _, _ => Return None
  end.

Definition getCurrentViewText (this : Rendition) : option ViewText :=
  match manager this with
  | None => None
  | Some manager =>
      match currentLocation manager with
      | Some (Some visibleSection :: _) =>
          match mapping visibleSection with
          | Some m =>
              match truthyString (mappingStart m), truthyString (mappingEnd m) with
              | Some start, Some end_ =>
                  match viewsFind manager (index visibleSection) with
                  | Some view =>
                      match contents view with
                      | Some contents =>
                          match document contents with
                          | Some doc =>
                              tryCatch
                                (range ← visibleRange doc start end_;
                                 match range with
                                 | Some range =>
                                     Return (Some (mkViewText (rangeToString doc range) start end_))
                                 | None => Return None
                                 end)
                                None
                          | None => None
                          end
                      | None => None
                      end
                  | None => None
                  end
              | _, _ => None
              end
          | None => None
          end
      | _ => None
      end
  end.

Definition getCurrentViewParagraphs (this : Rendition) (options : Options)
    : option (list Paragraph) :=
  let minLength := default 50 (optMinLength options) in
  match manager this with
  | None => None
  | Some manager =>
      match currentLocation manager with
      | Some (Some visibleSection :: _) =>
          match mapping visibleSection with
          | Some m =>
              match truthyString (mappingStart m), truthyString (mappingEnd m) with
              | Some start, Some end_ =>
                  match viewsFind manager (index visibleSection) with
                  | Some view =>
                      match contents view with
                      | Some contents =>
                          match document contents with
                          | Some doc =>
                              tryCatch
                                (range ← visibleRange doc start end_;
                                 match range with
                                 | Some range =>
                                     let paragraphs := _getParagraphsFromRange doc range contents in
                                     Return (Some paragraphs)
                                 | None => Return None
                                 end)
                                None
                          | None => None
                          end
                      | None => None
                      end
                  | None => None
                  end
              | _, _ => None
              end
          | None => None
          end
      | _ => None
      end
  end.

End CurrentView.

Arguments visibleRange {CFI} newEpubCFI toRange doc start end_.
Arguments getCurrentViewText {CFI} newEpubCFI toRange this.
Arguments getCurrentViewParagraphs {CFI} newEpubCFI toRange this options.

(** ** A small book to run the methods on *)
Module Sample.

(** A collaborator for the examples: a CFI string names a boundary point
    through a table; a string outside the table does not parse. *)
Definition cfiTable : Type := list (string * option BoundaryPoint).

Definition newEpubCFI (table : cfiTable) (s : string) : Exc (option BoundaryPoint) :=
  match list_find (λ e, e.1 = s) table with
  | Some (_, (_, bp)) => Return bp
  | None => Throw
  end.

Definition toRange (cfi : option BoundaryPoint) (doc : Node) : Exc (option Range) :=
  Return (bp ← cfi; Some (mkRange bp.1 bp.2 bp.1 bp.2)).

(** [cfiFromRange] that prints the two boundary points. *)
Definition showNat (n : nat) : string := pretty n.
Definition showRef (r : NodeRef) : string :=
  String.concat EmptyString ((λ i, "/" +:+ showNat i) <$> r).
Definition showRange (r : Range) : string :=
  showRef (startContainer r) +:+ ":" +:+ showNat (startOffset r) +:+ ","
  +:+ showRef (endContainer r) +:+ ":" +:+ showNat (endOffset r).

Definition contentsOf (doc : Node) : Contents :=
  mkContents (Some doc) (λ r, Return (showRange r)).

Definition rendition (doc : Node) (start end_ : string) : Rendition :=
  mkRendition (Some (mkManager
    (Some [Some (mkLocatedSection 0 (Some (mkMapping (Some start) (Some end_))))])
    (λ i, if decide (i = 0) then Some (mkView (Some (contentsOf doc))) else None))).

Definition html (body : list Node) : Node :=
  Element "#document" [Element "html" [Element "body" body]].

End Sample.

(** Sample documents and location tables. *)
Module Book.
Import Sample.

(** [<body><span>Hi </span><p>World</p></body>]. *)
Definition inlineThenBlock : Node :=
  html [Element "span" [Text "Hi "]; Element "p" [Text "World"]].

(** [<body><span>ABCDE</span><span>FGHIJ</span></body>]: no block-level
    element at all. *)
Definition noBlocks : Node :=
  html [Element "span" [Text "ABCDE"]; Element "span" [Text "FGHIJ"]].

(** Two paragraphs, [Alpha text.] and [Beta text.]. *)
Definition alphaBeta : Node :=
  html [Element "p" [Text "Alpha text."]; Element "p" [Text "Beta text."]].

(** A paragraph of 31 code units followed by one of 60. *)
Definition shortThenLong : Node :=
  html [Element "p" [Text "A short paragraph of 31 chars.."];
        Element "p" [Text "A much longer paragraph, which has sixty code units in all.."]].


Definition firstText : NodeRef := [0; 0; 0; 0].
Definition secondText : NodeRef := [0; 0; 1; 0].

(** Locations: [a0], [a3] and [a8] in the first Text node, [b5], [b10] and
    [bEnd] in the second, [c0] in the Text node of a third child of the
    body; [gone] resolves to nothing, and any other string does not parse. *)
Definition table : cfiTable :=
  [("a0", Some (firstText, 0)); ("a3", Some (firstText, 3)); ("a8", Some (firstText, 8));
   ("b5", Some (secondText, 5)); ("b10", Some (secondText, 10));
   ("bEnd", Some (secondText, 60)); ("c0", Some ([0; 0; 2; 0], 0)); ("gone", None)]%string.

Definition view (doc : Node) (start end_ : string) : Rendition := rendition doc start end_.

End Book.

(** ** The next-page predictor *)
Module PagePredictor.

Record ParagraphUnit : Type := mkParagraphUnit {
  unitText : string;
  startLocation : string;
  endLocation : string
}.

Record PageState : Type := mkPageState {
  pageWidth : nat;
  totalPages : nat;
  currentPages : list nat
}.

Inductive FailureReason : Type := SectionLoadTimeout.

Inductive State : Type :=
| Idle
| ComputingSamePage
| ComputingCrossSection
| Resolved (paragraphs : list ParagraphUnit)
| Failed (reason : FailureReason).

(** What the caller's awaitable does in the end. *)
Inductive Settlement : Type :=
| Resolves (paragraphs : list ParagraphUnit)
| Rejects.

(** The loader collaborator's answer to one [loadUnit] request: the tree
    root, at some time after the request, or never. *)
Inductive Load (Tree : Type) : Type :=
| CompletesAt (time : nat) (root : Tree)
| NeverCompletes.
Arguments CompletesAt {Tree} time root.
Arguments NeverCompletes {Tree}.

Inductive RaceResult (Tree : Type) : Type :=
| Loaded (time : nat) (root : Tree)
| TimedOut.
Arguments Loaded {Tree} time root.
Arguments TimedOut {Tree}.

Definition defaultTimeout : nat := 10.

Definition completesWithin {Tree : Type} (load : Load Tree) (bound : nat) : bool :=
  match load with
  | CompletesAt time _ => (time <=? bound)%nat
  | NeverCompletes => false
  end.

Record Run : Type := mkRun {
  trace : list State;
  settlement : Settlement;
  settledAt : nat;
  loadRequests : nat
}.

Section Predictor.

Variable Tree : Type.
(** The pagination collaborator's [locationsForWindow] followed by the
    Fragment Resolver and the Paragraph Builder, on a tree and a page
    window. *)
Variable paragraphsOfWindow : Tree → nat * nat → list ParagraphUnit.

(** Modelled from the spec: the race of section 4.4 between the load of
    the next document unit and the timer; [getNextViewParagraphs] and
    [_getFirstPageParagraphsInNextSection] are missing from the sources.
    Whichever of the two comes first decides. *)
Definition race (load : Load Tree) (timeout : nat) : RaceResult Tree :=
  match load with
  | CompletesAt time root =>
      if completesWithin load timeout then Loaded time root else TimedOut
  | NeverCompletes => TimedOut
  end.

(** Modelled from the spec: the length filter of section 4.4, which
    drops every unit with [text.length < minLength]; the filtering code
    of [getNextViewParagraphs] is missing from the sources. *)
Definition lengthFilter (minLength : nat) (ps : list ParagraphUnit) : list ParagraphUnit :=
  filter (λ p, minLength ≤ String.length (unitText p)) ps.

(** Modelled from the spec: [predictNext] of section 4.4
    ([getNextViewParagraphs]), missing from the sources.  The same-section
    path is taken when [currentPages.max < totalPages]; otherwise one load
    of the next unit is requested and raced against the timeout. *)
Definition predictNext (timeout : nat) (page : PageState) (minLength : nat)
    (current : Tree) (nextUnit : Load Tree) : Run :=
  let maxPage := max_list (currentPages page) in
  if (maxPage <? totalPages page)%nat then
    let nextPage := maxPage + 1 in
    let window := ((nextPage - 1) * pageWidth page, nextPage * pageWidth page) in
    let ps := lengthFilter minLength (paragraphsOfWindow current window) in
    mkRun [Idle; ComputingSamePage; Resolved ps; Idle] (Resolves ps) 0 0
  else
    match race nextUnit timeout with
    | Loaded time root =>
        let ps := lengthFilter minLength (paragraphsOfWindow root (0, pageWidth page)) in
        mkRun [Idle; ComputingCrossSection; Resolved ps; Idle] (Resolves ps) time 1
    | TimedOut =>
        mkRun [Idle; ComputingCrossSection; Failed SectionLoadTimeout; Idle]
          (Resolves []) timeout 1
    end.

Definition getNextPageParagraphs : PageState → nat → Tree → Load Tree → Run :=
  predictNext defaultTimeout.

End Predictor.

End PagePredictor.

(** ** Notions the properties are stated with *)

(** The page the guards of [getCurrentViewText] and
    [getCurrentViewParagraphs] let through: the document and contents of the
    view of the first located section, with the two locations of its
    mapping. *)
Definition displayedPage (this : Rendition) : option (Node * Contents * string * string) :=
  manager ← manager this;
  location ← currentLocation manager;
  visibleSection ← mjoin (head location);
  m ← mapping visibleSection;
  start ← truthyString (mappingStart m);
  end_ ← truthyString (mappingEnd m);
  view ← viewsFind manager (index visibleSection);
  contents ← contents view;
  doc ← document contents;
  Some (doc, contents, start, end_).

(** The manager with the first located section alone: the later entries of
    the location are dropped, and so is every view of another section. *)
Definition firstSectionAlone (m : Manager) : Manager :=
  mkManager
    (take 1 <$> currentLocation m)
    (λ i, match currentLocation m with
          | Some (Some visibleSection :: _) =>
              if decide (i = index visibleSection) then viewsFind m i else None
          | _ => None
          end).

(** [b] is a proper ancestor of [t]. *)
Definition properAncestor (b t : NodeRef) : Prop :=
  ∃ below, below ≠ [] ∧ t = b ++ below.

(** [b] is the nearest block-level ancestor element of [t]: an element
    above [t] that matches a block selector, with no matching element
    strictly between the two. *)
Definition nearestBlockAncestor (doc : Node) (t b : NodeRef) : Prop :=
  b ≠ [] ∧ properAncestor b t ∧ matches doc b blockSelectors = true ∧
  ∀ e, properAncestor b e → properAncestor e t → matches doc e blockSelectors = false.

Section Locations.

Variable CFI : Type.
Variable newEpubCFI : string → Exc CFI.
Variable toRange : CFI → Node → Exc (option Range).

(** A location fails when its string does not parse (the constructor
    throws) or does not resolve into the tree ([toRange] throws or
    returns null). *)
Definition locationFails (doc : Node) (s : string) : Prop :=
  match newEpubCFI s with
  | Throw => True
  | Return cfi =>
      match toRange cfi doc with
      | Return (Some _) => False
      | _ => True
      end
  end.

End Locations.

Arguments locationFails {CFI} newEpubCFI toRange doc s.

(** ** Further notions the properties are stated with *)

(** [a] comes before [b] in tree order. *)
Definition precedes (a b : NodeRef) : Prop := lexCompare a b = Lt.

(** What the loop over the Text nodes of a group appends to the text for
    the node [t]: the data from the start offset in the start container, the
    data up to the end offset in the end container, and all the data of any
    other node. *)
Definition clippedText (doc : Node) (range : Range) (t : NodeRef) : string :=
  if bool_decide (t = startContainer range) then
    Js.substringFrom (textContent doc t) (startOffset range)
  else if bool_decide (t = endContainer range) then
    Js.substring (textContent doc t) 0 (endOffset range)
  else textContent doc t.

(** A range that starts in one Text node and ends in a later one, below a
    common ancestor that is not the Document, with its end offset inside
    the end node. *)
Definition spansTextNodes (doc : Node) (range : Range) : Prop :=
  (∃ d, nodeAt doc (startContainer range) = Some (Text d)) ∧
  (∃ d, nodeAt doc (endContainer range) = Some (Text d) ∧ endOffset range ≤ String.length d) ∧
  precedes (startContainer range) (endContainer range) ∧
  commonAncestorContainer range ≠ [].

(** ** Values of settings and metadata

    The layout settings of a rendition and the metadata of a package hold
    strings, numbers, booleans, null or nothing; the numbers that occur (a
    width in pixels) are integers.  [truthy] is ToBoolean and [jsOr] the
    operator [||]. *)
Inductive JsValue : Type :=
| JUndefined
| JNull
| JBoolean (b : bool)
| JNumber (n : Z)
| JString (s : string).

#[global] Instance JsValue_eq_dec : EqDecision JsValue.
Proof. solve_decision. Defined.

Definition truthy (v : JsValue) : bool :=
  match v with
  | JUndefined | JNull => false
  | JBoolean b => b
  | JNumber n => negb (n =? 0)%Z
  | JString s => negb (Js.falsy s)
  end.

Definition jsOr (a b : JsValue) : JsValue := if truthy a then a else b.

(** The layout properties, as [settings], [metadata] and the object
    [determineLayoutProperties] returns hold them. *)
Module Props.
Record t : Type := mk {
  layout : JsValue;
  spread : JsValue;
  orientation : JsValue;
  flow : JsValue;
  viewport : JsValue;
  minSpreadWidth : JsValue;
  direction : JsValue
}.
End Props.

(** ** [determineLayoutProperties]

    [this.settings] is passed along.  The test on [settings.width] and
    [settings.height] guards a statement that is commented out. *)
Definition determineLayoutProperties (settings metadata : Props.t) : Props.t :=
  let layout :=
    jsOr (jsOr (Props.layout settings) (Props.layout metadata)) (JString "reflowable") in
  let spread :=
    jsOr (jsOr (Props.spread settings) (Props.spread metadata)) (JString "auto") in
  let orientation :=
    jsOr (jsOr (Props.orientation settings) (Props.orientation metadata)) (JString "auto") in
  let flow :=
    jsOr (jsOr (Props.flow settings) (Props.flow metadata)) (JString "auto") in
  let viewport := jsOr (Props.viewport metadata) (JString EmptyString) in
  let minSpreadWidth :=
    jsOr (jsOr (Props.minSpreadWidth settings) (Props.minSpreadWidth metadata)) (JNumber 800) in
  let direction :=
    jsOr (jsOr (Props.direction settings) (Props.direction metadata)) (JString "ltr") in
  Props.mk layout spread orientation flow viewport minSpreadWidth direction.

(** ** The displayed location

    An entry of [manager.currentLocation()] with all that [located] reads
    of it: [base] holds its index and its mapping. *)
Module DisplayedSection.
Record t : Type := mk {
  base : LocatedSection;
  href : string;
  pages : list nat;
  totalPages : nat
}.
End DisplayedSection.

Module Displayed.
Record t : Type := mk {
  page : nat;
  total : nat
}.
End Displayed.

(** [located.start] and [located.end]; [location], [percentage] and
    [page] are set only under a condition.  [P] is the type of what
    [percentageFromLocation] returns. *)
Module LocatedEnd.
Record t (P : Type) : Type := mk {
  index : nat;
  href : string;
  cfi : option string;
  displayed : Displayed.t;
  location : option Z;
  percentage : option P;
  page : option Z
}.
Arguments mk {P} index href cfi displayed location percentage page.
Arguments index {P} t.
Arguments href {P} t.
Arguments cfi {P} t.
Arguments displayed {P} t.
Arguments location {P} t.
Arguments percentage {P} t.
Arguments page {P} t.
End LocatedEnd.

(** The object [located] returns; the empty object has no property set. *)
Module Located.
Record t (P : Type) : Type := mk {
  start : option (LocatedEnd.t P);
  end_ : option (LocatedEnd.t P);
  atStart : bool;
  atEnd : bool
}.
Arguments mk {P} start end_ atStart atEnd.
Arguments start {P} t.
Arguments end_ {P} t.
Arguments atStart {P} t.
Arguments atEnd {P} t.
End Located.

(** What [manager.currentLocation()] returns to the rendition: nothing, a
    promise of an array, or an array. *)
Inductive ManagerLocation : Type :=
| NoLocation
| LocationPromise (result : list (option DisplayedSection.t))
| LocationArray (location : list (option DisplayedSection.t)).

(** The events [reportLocation] emits. *)
Inductive Event (P : Type) : Type :=
| LOCATION_CHANGED (index : nat) (href : string) (start end_ : option string)
    (percentage : option P)
| RELOCATED (location : Located.t P).
Arguments LOCATION_CHANGED {P} index href start end_ percentage.
Arguments RELOCATED {P} location.

(** What [flow] and [direction] call on the layout, on the manager and on
    the rendition, in the order of the calls. *)
Inductive Call : Type :=
| layout_flow (flow : JsValue)
| manager_applyLayout
| manager_updateFlow (flow : JsValue)
| manager_direction (dir : JsValue)
| manager_clear
| display (target : option string).

(** What these two methods read of the rendition: its settings, whether
    [this._layout] and [this.manager] are set, the answer of
    [manager.isRendered()], and [this.location]. *)
Record Layouting (P : Type) : Type := mkLayouting {
  settings : Props.t;
  _layout : bool;
  hasManager : bool;
  isRendered : bool;
  location : option (Located.t P)
}.
Arguments mkLayouting {P} settings _layout hasManager isRendered location.
Arguments settings {P} l.
Arguments _layout {P} l.
Arguments hasManager {P} l.
Arguments isRendered {P} l.
Arguments location {P} l.

(** The outcome of such a method: the settings it leaves, the calls it
    made, and whether it completed or threw. *)
Record Outcome : Type := mkOutcome {
  settingsAfter : Props.t;
  calls : list Call;
  completion : Exc unit
}.

(** The statements [flow] and [direction] end with: when the manager has
    rendered and a location is known, clear and display again.  Reading
    [this.location.start.cfi] throws when the location has no start. *)
Definition displayAgain {P : Type} (this : Layouting P) : list Call * Exc unit :=
  if hasManager this && isRendered this then
    match location this with
    | Some l =>
        match Located.start l with
        | Some s => ([manager_clear; display (LocatedEnd.cfi s)], Return ())
        | None => ([manager_clear], Throw)
        end
    | None => ([], Return ())
    end
  else ([], Return ()).

(** The name [flow] hands to the layout and to the manager. *)
Definition _flow (flow : JsValue) : JsValue :=
  let _flow := flow in
  let _flow :=
    if bool_decide (flow = JString "scrolled") || bool_decide (flow = JString "scrolled-doc")
       || bool_decide (flow = JString "scrolled-continuous")
    then JString "scrolled" else _flow in
  if bool_decide (flow = JString "auto") || bool_decide (flow = JString "paginated")
  then JString "paginated" else _flow.

Definition setFlow (p : Props.t) (v : JsValue) : Props.t :=
  Props.mk (Props.layout p) (Props.spread p) (Props.orientation p) v (Props.viewport p)
    (Props.minSpreadWidth p) (Props.direction p).

Definition setDirection (p : Props.t) (v : JsValue) : Props.t :=
  Props.mk (Props.layout p) (Props.spread p) (Props.orientation p) (Props.flow p)
    (Props.viewport p) (Props.minSpreadWidth p) v.

Definition flow {P : Type} (this : Layouting P) (flow : JsValue) : Outcome :=
  let again := displayAgain this in
  mkOutcome (setFlow (settings this) flow)
    ((if _layout this then [layout_flow (_flow flow)] else [])
     ++ (if hasManager this && _layout this then [manager_applyLayout] else [])
     ++ (if hasManager this then [manager_updateFlow (_flow flow)] else [])
     ++ again.1)
    again.2.

Definition direction {P : Type} (this : Layouting P) (dir : JsValue) : Outcome :=
  let again := displayAgain this in
  let direction := jsOr dir (JString "ltr") in
  mkOutcome (setDirection (settings this) direction)
    ((if hasManager this then [manager_direction direction] else []) ++ again.1)
    again.2.

(** ** [located], [currentLocation] and [reportLocation]

    The book is a collaborator: [book.locations.locationFromCfi] returns a
    number or null, [book.pageList.pageFromCfi] a number, -1 for no page;
    the spine has a first and a last section. *)
Section Locating.

Variable Percentage : Type.
Variable locationFromCfi : option string → option Z.
Variable percentageFromLocation : Z → Percentage.
Variable pageFromCfi : option string → Z.
Variable spineFirstIndex spineLastIndex : nat.

(** [page || 1] on an element of [pages] that may be missing. *)
Definition pageOr1 (page : option nat) : nat :=
  match page with
  | Some (S n) => S n
  | _ => 1
  end.

Definition locatedEnd (index : nat) (href : string) (cfi : option string)
    (page total : nat) : LocatedEnd.t Percentage :=
  let location := locationFromCfi cfi in
  let pageOfCfi := pageFromCfi cfi in
  LocatedEnd.mk index href cfi (Displayed.mk page total)
    location (percentageFromLocation <$> location)
    (if bool_decide (pageOfCfi = (-1)%Z) then None else Some pageOfCfi).

(** [located(location)]; reading a property of an entry that is undefined,
    or of a mapping that is, throws. *)
Definition located (location : list (option DisplayedSection.t))
    : Exc (Located.t Percentage) :=
  if bool_decide (length location = 0) then Return (Located.mk None None false false)
  else
    match mjoin (location !! 0), mjoin (location !! (length location - 1)) with
    | Some start, Some end_ =>
        match mapping (DisplayedSection.base start), mapping (DisplayedSection.base end_) with
        | Some startMapping, Some endMapping =>
            let startPage := pageOr1 (DisplayedSection.pages start !! 0) in
            let endPage :=
              pageOr1 (DisplayedSection.pages end_
                         !! (length (DisplayedSection.pages end_) - 1)) in
            Return (Located.mk
              (Some (locatedEnd (index (DisplayedSection.base start))
                       (DisplayedSection.href start) (mappingStart startMapping)
                       startPage (DisplayedSection.totalPages start)))
              (Some (locatedEnd (index (DisplayedSection.base end_))
                       (DisplayedSection.href end_) (mappingEnd endMapping)
                       endPage (DisplayedSection.totalPages end_)))
              (bool_decide (index (DisplayedSection.base start) = spineFirstIndex)
               && bool_decide (startPage = 1))
              (bool_decide (index (DisplayedSection.base end_) = spineLastIndex)
               && (DisplayedSection.totalPages end_ <=? endPage)%nat))
        | _, _ => Throw
        end
    | _, _ => Throw
    end.

(** [rendition.currentLocation()]: the callback given to a promise returns
    to the promise, so that the method itself returns undefined then. *)
Definition Rendition_currentLocation (location : ManagerLocation)
    : Exc (option (Located.t Percentage)) :=
  match location with
  | NoLocation => Return None
  | LocationPromise _ => Return None
  | LocationArray location => l ← located location; Return (Some l)
  end.

(** What [reportLocation] does with an array: the value of [this.location]
    it leaves and the events it emits. *)
Definition relocate (this_location : option (Located.t Percentage))
    (location : list (option DisplayedSection.t))
    : Exc (option (Located.t Percentage) * list (Event Percentage)) :=
  located ← located location;
  match Located.start located, Located.end_ located with
  | Some start, Some end_ =>
      Return (Some located,
              [LOCATION_CHANGED (LocatedEnd.index start) (LocatedEnd.href start)
                 (LocatedEnd.cfi start) (LocatedEnd.cfi end_) (LocatedEnd.percentage start);
               RELOCATED located])
  | _, _ => Return (this_location, [])
  end.

(** The function [reportLocation] runs on the animation frame, with what
    [manager.currentLocation()] returned; on a promise, it is the callback
    that runs, once the promise has its result. *)
Definition reportedLocationAfterRAF (this_location : option (Located.t Percentage))
    (location : ManagerLocation)
    : Exc (option (Located.t Percentage) * list (Event Percentage)) :=
  match location with
  | NoLocation => Return (this_location, [])
  | LocationPromise result => relocate this_location result
  | LocationArray location => relocate this_location location
  end.

End Locating.

Arguments locatedEnd {Percentage} locationFromCfi percentageFromLocation pageFromCfi
  index href cfi page total.
Arguments located {Percentage} locationFromCfi percentageFromLocation pageFromCfi
  spineFirstIndex spineLastIndex location.
Arguments Rendition_currentLocation {Percentage} locationFromCfi percentageFromLocation
  pageFromCfi spineFirstIndex spineLastIndex location.
Arguments relocate {Percentage} locationFromCfi percentageFromLocation pageFromCfi
  spineFirstIndex spineLastIndex this_location location.
Arguments reportedLocationAfterRAF {Percentage} locationFromCfi percentageFromLocation
  pageFromCfi spineFirstIndex spineLastIndex this_location location.

(** A stored location is well formed when it has both a start and an end. *)
Definition hasBothEnds {P : Type} (l : option (Located.t P)) : Prop :=
  match l with
  | Some l => is_Some (Located.start l) ∧ is_Some (Located.end_ l)
  | None => True
  end.

(** The flow names among the calls of a method. *)
Definition flowsOf (cs : list Call) : list JsValue :=
  omap (λ c, match c with
             | layout_flow g | manager_updateFlow g => Some g
             | _ => None
             end) cs.

(** The array a manager location holds or promises. *)
Definition entries (location : ManagerLocation) : list (option DisplayedSection.t) :=
  match location with
  | NoLocation => []
  | LocationPromise l | LocationArray l => l
  end.

(** A method that clears the manager does so once and displays next, as
    the last thing it does. *)
Definition clearsToDisplay (cs : list Call) : Prop :=
  manager_clear ∉ cs ∨
  ∃ before target, cs = before ++ [manager_clear; display target] ∧ manager_clear ∉ before.

(** ** [highlightElement]

    [range.selectNode(node)]: InvalidNodeTypeError when the node has no
    parent; the range then runs from just before the node to just behind
    it. *)
Definition selectNode (node : NodeRef) : Exc Range :=
  match parentNode node with
  | None => Throw
  | Some parent =>
      let index := List.last node 0 in
      Return (mkRange parent index parent (index + 1))
  end.

(** [element.textContent]: the data of the Text nodes below the element,
    in tree order. *)
Definition textOfElement (doc : Node) (element : NodeRef) : string :=
  match nodeAt doc element with
  | Some n => String.concat EmptyString (textContent doc <$> ((element ++.) <$> textNodesOf n))
  | None => EmptyString
  end.

(** A view of [manager.visible()]. *)
Module VisibleView.
Record t : Type := mk {
  index : nat;
  contents : option Contents
}.
End VisibleView.

(** An object of CSS styles: its properties in the order in which they
    were set. *)
Definition Styles : Type := list (string * string).

Fixpoint setProperty (o : Styles) (k v : string) : Styles :=
  match o with
  | [] => [(k, v)]
  | (k', v') :: o' => if decide (k' = k) then (k', v) :: o' else (k', v') :: setProperty o' k v
  end.

(** [Object.assign(target, source)]. *)
Definition Object_assign (target source : Styles) : Styles :=
  foldl (λ o property, setProperty o property.1 property.2) target source.

Definition defaultStyles : Styles :=
  [("fill", "yellow"); ("fill-opacity", "0.3"); ("mix-blend-mode", "multiply")]%string.

(** Why the promise of [highlightElement] is rejected; the last reason
    stands for the message of whatever was caught. *)
Inductive Reason : Type :=
| Rendition_manager_not_available
| No_view_found_for_CFI (cfi : string)
| View_contents_not_available
| Could_not_convert_CFI_to_DOM_range
| Could_not_find_element_for_CFI
| Error_highlighting_element.

Inductive Promise (A : Type) : Type :=
| Resolved (a : A)
| Rejected (reason : Reason).
Arguments Resolved {A} a.
Arguments Rejected {A} reason.

(** The collaborators: the EpubCFI class, with [spinePos] read of a parsed
    CFI and [toRange] called on the document of the contents, which may be
    undefined, and [annotations.highlight].  A range that [toRange] returns
    without a document lies in [window.document]. *)
Section Highlighting.

Variable CFI : Type.
Variable Data : Type.
Variable Callback : Type.
Variable Annotation : Type.
Variable newEpubCFI : string → Exc CFI.
Variable spinePos : CFI → nat.
Variable toRange : CFI → option Node → Exc (option Range).
Variable windowDocument : Node.
Variable emptyData : Data.
Variable noop : Callback.
Variable highlight : string → Data → Callback → string → Styles → Exc Annotation.

(** [visible] is [this.manager.visible()], where there is a manager; an
    argument that is not given is undefined. *)
Definition highlightElement (visible : option (list VisibleView.t)) (cfi : string)
    (data : option Data) (cb : option Callback) (className : option string)
    (styles : option Styles) : Promise Annotation :=
  let data := default emptyData data in
  let className := default "epubjs-hl"%string className in
  let styles := default [] styles in
  match visible with
  | None => Rejected Rendition_manager_not_available
  | Some visible =>
      tryCatch
        (singleCfi ← newEpubCFI cfi;
         let found :=
           filter (λ view, spinePos singleCfi = VisibleView.index view) visible in
         match found with
         | [] => Return (Rejected (No_view_found_for_CFI cfi))
         | view :: _ =>
             match VisibleView.contents view with
             | None => Return (Rejected View_contents_not_available)
             | Some contents =>
                 range ← toRange singleCfi (document contents);
                 match range with
                 | None => Return (Rejected Could_not_convert_CFI_to_DOM_range)
                 | Some range =>
                     let tree := default windowDocument (document contents) in
                     let element :=
                       if isText tree (startContainer range)
                       then parentElement (startContainer range)
                       else Some (startContainer range) in
                     match element with
                     | None => Return (Rejected Could_not_find_element_for_CFI)
                     | Some element =>
                         match document contents with
                         | None => Throw
                         | Some doc =>
                             elementRange ← selectNode element;
                             cfiRange ← cfiFromRange contents elementRange;
                             let mergedStyles := Object_assign defaultStyles styles in
                             annotation ←
                               highlight cfiRange data (default noop cb) className mergedStyles;
                             Return (Resolved annotation)
                         end
                     end
                 end
             end
         end)
        (Rejected Error_highlighting_element)
  end.

End Highlighting.

Arguments highlightElement {CFI Data Callback Annotation} newEpubCFI spinePos toRange
  windowDocument emptyData noop highlight visible cfi data cb className styles.

(** A paragraph with emphasis inside, a located section with its pages,
    a book without page list, and the manager that shows the section. *)
Module Leaflet.
Import Sample.

(** [<body><p>Hello <b>bold</b> world</p></body>]. *)
Definition emphasis : Node :=
  html [Element "p" [Text "Hello "; Element "b" [Text "bold"]; Text " world"]].

Definition hello : NodeRef := [0; 0; 0; 0].
Definition bold : NodeRef := [0; 0; 0; 1; 0].
Definition world : NodeRef := [0; 0; 0; 2].

Definition chapter : DisplayedSection.t :=
  DisplayedSection.mk (mkLocatedSection 0 (Some (mkMapping (Some "a3") (Some "b5"))))
    "chapter.xhtml" [2; 3] 7.

Definition locationOf (cfi : option string) : option Z :=
  if decide (cfi = Some "a3"%string) then Some 4%Z else None.

Definition percentageOf (location : Z) : Z := (location * 10)%Z.

Definition pageOf (cfi : option string) : Z := (-1)%Z.

Definition chapterStart : LocatedEnd.t Z :=
  LocatedEnd.mk 0 "chapter.xhtml" (Some "a3"%string) (Displayed.mk 2 7)
    (Some 4%Z) (Some 40%Z) None.

Definition chapterEnd : LocatedEnd.t Z :=
  LocatedEnd.mk 0 "chapter.xhtml" (Some "b5"%string) (Displayed.mk 3 7) None None None.

Definition chapterLocated : Located.t Z :=
  Located.mk (Some chapterStart) (Some chapterEnd) false false.

Definition oneSection : Manager :=
  mkManager (Some [Some (DisplayedSection.base chapter)])
    (λ i, if decide (i = 0) then Some (mkView (Some (contentsOf Book.alphaBeta))) else None).

Definition rendered : Layouting Z :=
  mkLayouting
    (Props.mk JNull JNull JUndefined JNull JUndefined (JNumber 800) JUndefined)
    true true true (Some chapterLocated).

(** Collaborators of [highlightElement]: a CFI resolves in a document when
    its node is there, every CFI lies in section 0, and the annotation is
    the CFI range with the styles it was given. *)
Definition toRangeIn (cfi : option BoundaryPoint) (doc : option Node) : Exc (option Range) :=
  match doc, cfi with
  | Some doc, Some bp =>
      if decide (is_Some (nodeAt doc bp.1))
      then Return (Some (mkRange bp.1 bp.2 bp.1 bp.2))
      else Return None
  | _, _ => Return None
  end.

Definition annotate (cfiRange : string) (data : unit) (cb : unit) (className : string)
    (styles : Styles) : Exc (string * Styles) :=
  Return (cfiRange, styles).

Definition oneView : option (list VisibleView.t) :=
  Some [VisibleView.mk 0 (Some (contentsOf Book.alphaBeta))].

End Leaflet.

(** * Properties *)

(** ** White space *)

Lemma trimStart_blank s : Js.isBlank s = true → Js.trimStart s = EmptyString.
Proof.
  induction s as [|c s IH]; simpl; [done|].
  destruct (Js.isWhiteSpace c); simpl; [exact IH|done].
Qed.

Lemma trimStart_not_blank s : Js.isBlank s = false → Js.isBlank (Js.trimStart s) = false.
Proof.
  induction s as [|c s IH]; simpl; [done|].
  destruct (Js.isWhiteSpace c) eqn:E; simpl; [exact IH|].
  by rewrite E.
Qed.

Lemma trimEnd_not_blank s : Js.isBlank s = false → Js.trimEnd s ≠ EmptyString.
Proof.
  induction s as [|c s IH]; simpl; [done|].
  destruct (Js.isWhiteSpace c) eqn:E; simpl.
  - intros Hs. specialize (IH Hs). by destruct (Js.trimEnd s).
  - intros _. by destruct (Js.trimEnd s).
Qed.

(** [trim] leaves nothing exactly of the strings that are empty or hold
    white space only. *)
Lemma trim_blank s : Js.trim s = EmptyString ↔ Js.isBlank s = true.
Proof.
  unfold Js.trim. split.
  - intros H. destruct (Js.isBlank s) eqn:E; [done|].
    by apply trimStart_not_blank, trimEnd_not_blank in E.
  - intros H. by rewrite trimStart_blank.
Qed.

Lemma falsy_empty s : Js.falsy s = true ↔ s = EmptyString.
Proof. by destruct s. Qed.

(** ** Trees *)

Lemma Node_tree_ind (P : Node → Prop) :
  (∀ d, P (Text d)) →
  (∀ tag cs, Forall P cs → P (Element tag cs)) →
  ∀ n, P n.
Proof.
  intros Ht He. fix IH 1. intros [d|tag cs]; [apply Ht|].
  apply He. induction cs as [|c cs IHcs]; constructor; [apply IH|apply IHcs].
Qed.

Lemma belowChildren_head collect i cs x :
  x ∈ belowChildren collect i cs → ∃ j r, i ≤ j ∧ x = j :: r.
Proof.
  revert i. induction cs as [|c cs IH]; intros i; simpl.
  - by intros ?%elem_of_nil.
  - rewrite elem_of_app, list_elem_of_fmap. intros [(r & -> & _)|H].
    + exists i, r. split; [lia|done].
    + destruct (IH _ H) as (j & r & ? & ->). exists j, r. split; [lia|done].
Qed.

Lemma belowChildren_NoDup collect i cs :
  Forall (λ c, NoDup (collect c)) cs → NoDup (belowChildren collect i cs).
Proof.
  intros H. revert i. induction H as [|c cs Hc _ IH]; intros i; simpl.
  - constructor.
  - apply NoDup_app. split; [|split].
    + apply NoDup_fmap_2; [|done]. by intros ?? [=].
    + intros x (r & -> & _)%list_elem_of_fmap Hx.
      apply belowChildren_head in Hx as (j & r' & ? & [= -> ->]). lia.
    + apply IH.
Qed.

(** The Text nodes of a tree are listed once each. *)
Lemma textNodesOf_NoDup n : NoDup (textNodesOf n).
Proof.
  induction n as [d|tag cs IH] using Node_tree_ind; simpl.
  - apply NoDup_singleton.
  - by apply belowChildren_NoDup.
Qed.

(** [_getTextNodesInRange] returns no node twice. *)
Lemma getTextNodesInRange_NoDup doc range : NoDup (_getTextNodesInRange doc range).
Proof.
  unfold _getTextNodesInRange, treeWalkerTextNodes.
  destruct (ownerDocument _); [|constructor].
  destruct (nodeAt doc _) as [[d|tag cs]|]; try constructor.
  apply NoDup_filter, NoDup_fmap_2; [|apply textNodesOf_NoDup].
  intros ??. apply app_inv_head.
Qed.

(** ** The order of boundary points *)

Lemma lexCompare_antisym a b : lexCompare b a = CompOpp (lexCompare a b).
Proof.
  revert b. induction a as [|x a IH]; intros [|y b]; simpl; try done.
  rewrite (Nat.compare_antisym x y). destruct (x ?= y); simpl; auto.
Qed.

Lemma lexCompare_refl a : lexCompare a a = Eq.
Proof. induction a as [|x a IH]; simpl; [done|]. by rewrite Nat.compare_refl. Qed.

Lemma isBefore_isAfter a b : isBefore a b = isAfter b a.
Proof.
  unfold isBefore, isAfter, position. rewrite (lexCompare_antisym (a.1 ++ [a.2])).
  by destruct (lexCompare _ _).
Qed.

Lemma lexCompare_trans a b c :
  lexCompare a b = Lt → lexCompare b c = Lt → lexCompare a c = Lt.
Proof.
  revert b c. induction a as [|x a IH]; intros [|y b] [|z c]; simpl; try done.
  destruct (Nat.compare_spec x y), (Nat.compare_spec y z); try done; subst.
  - rewrite Nat.compare_refl. apply IH.
  - intros _ _. by rewrite (proj2 (Nat.compare_lt_iff _ _)).
  - intros _ _. by rewrite (proj2 (Nat.compare_lt_iff _ _)).
  - intros _ _. rewrite (proj2 (Nat.compare_lt_iff x z)); [done|lia].
Qed.

(** Two boundary points in one node compare as their offsets. *)
Lemma lexCompare_snoc n i j : lexCompare (n ++ [i]) (n ++ [j]) = (i ?= j).
Proof.
  induction n as [|x n IH]; simpl.
  - by destruct (i ?= j).
  - by rewrite Nat.compare_refl.
Qed.

Lemma lexCompare_snoc_le n i j : i ≤ j → lexCompare (n ++ [i]) (n ++ [j]) ≠ Gt.
Proof.
  intros Hij. rewrite lexCompare_snoc.
  destruct (Nat.compare_spec i j); try done. lia.
Qed.

(** No node lies inside a collapsed range. *)
Lemma contained_collapsed doc node offset t :
  contained doc (mkRange node offset node offset) t = false.
Proof.
  unfold contained. destruct (nodeAt doc t) as [n|]; [|done].
  unfold isAfter, isBefore, position, rangeStart, rangeEnd; simpl.
  destruct (lexCompare (t ++ [0]) (node ++ [offset])) eqn:E1; try done.
  destruct (lexCompare (t ++ [nodeLength n]) (node ++ [offset])) eqn:E2; try done.
  exfalso. apply (lexCompare_snoc_le t 0 (nodeLength n)); [lia|].
  rewrite lexCompare_antisym.
  rewrite (lexCompare_trans _ _ _ E2); [done|].
  by rewrite lexCompare_antisym, E1.
Qed.

Lemma substring_none n s : String.substring n 0 s = EmptyString.
Proof. revert s. induction n as [|n IH]; intros [|c s]; simpl; auto. Qed.

(** The text of a collapsed range is empty. *)
Lemma rangeToString_collapsed doc node offset :
  rangeToString doc (mkRange node offset node offset) = EmptyString.
Proof.
  unfold rangeToString; simpl. rewrite bool_decide_true by done; simpl.
  destruct (isText doc node); simpl.
  - by rewrite Nat.sub_diag, substring_none.
  - assert (filter (λ t, contained doc (mkRange node offset node offset) t) (textNodesOf doc) = [])
      as ->; [|done].
    induction (textNodesOf doc) as [|t ts IH]; [done|].
    rewrite filter_cons_False; [exact IH|]. rewrite contained_collapsed. by intros [].
Qed.

(** [setStart] then [setEnd] on a fresh range: the boundary points in the
    given order when they are in document order, and otherwise the range
    collapsed onto the second of them. *)
Lemma setStart_setEnd doc s so e eo r1 r2 :
  setStart doc createRange s so = Return r1 →
  setEnd doc r1 e eo = Return r2 →
  r2 = if isBefore (e, eo) (s, so) then mkRange e eo e eo else mkRange s so e eo.
Proof.
  unfold setStart, setEnd.
  destruct (nodeAt doc s) as [ns|]; [|done].
  destruct (nodeLength ns <? so)%nat; [done|].
  destruct (nodeAt doc e) as [ne|]; [|done].
  destruct (nodeLength ne <? eo)%nat; [done|].
  intros H1 H2.
  assert (rangeStart r1 = (s, so)) as Hs by (by destruct (isAfter _ _); simplify_eq).
  assert (startContainer r1 = s ∧ startOffset r1 = so) as [E1 E2].
  { unfold rangeStart in Hs. by simplify_eq. }
  rewrite Hs, E1, E2 in H2. by destruct (isBefore _ _); simplify_eq.
Qed.

(** ** The map of groups *)

Lemma Map_get_None {V} (m : NodeMap V) k : Map_get m k = None ↔ k ∉ m.*1.
Proof.
  induction m as [|[k' v'] m IH]; simpl.
  - split; [intros _; apply not_elem_of_nil|done].
  - rewrite not_elem_of_cons. case_decide as E.
    + split; [done|]. intros [? _]. congruence.
    + rewrite IH. split; [intros ?; split; [congruence|done]|by intros [_ ?]].
Qed.

Lemma Map_get_Some {V} (m : NodeMap V) k v :
  Map_get m k = Some v → ∃ ma mb, m = ma ++ (k, v) :: mb ∧ (k ∉ ma.*1).
Proof.
  induction m as [|[k' v'] m IH]; simpl; [done|].
  case_decide as E.
  - intros [= ->]. subst k'. exists [], m. split; [done|apply not_elem_of_nil].
  - intros (ma & mb & -> & Hk)%IH. exists ((k', v') :: ma), mb.
    split; [done|]. simpl. rewrite not_elem_of_cons. split; [congruence|done].
Qed.

Lemma Map_set_present {V} (ma mb : NodeMap V) k v v' :
  k ∉ ma.*1 → Map_set (ma ++ (k, v) :: mb) k v' = ma ++ (k, v') :: mb.
Proof.
  induction ma as [|[k0 v0] ma IH]; simpl.
  - intros _. by rewrite decide_True.
  - rewrite not_elem_of_cons. intros [? ?]. rewrite decide_False by congruence.
    by rewrite IH.
Qed.

Lemma Map_set_absent {V} (m : NodeMap V) k v :
  k ∉ m.*1 → Map_set m k v = m ++ [(k, v)].
Proof.
  induction m as [|[k0 v0] m IH]; simpl; [done|].
  rewrite not_elem_of_cons. intros [? ?]. rewrite decide_False by congruence.
  by rewrite IH.
Qed.

Lemma Map_get_present {V} (ma mb : NodeMap V) k v :
  k ∉ ma.*1 → Map_get (ma ++ (k, v) :: mb) k = Some v.
Proof.
  induction ma as [|[k0 v0] ma IH]; simpl.
  - intros _. by rewrite decide_True.
  - rewrite not_elem_of_cons. intros [? ?]. rewrite decide_False by congruence. auto.
Qed.

(** What the body of the first loop does to the map once the block element
    [k] of [t] is known: [t] goes to the end of the entry of [k], which is
    created at the end of the map when it is missing. *)
Lemma push_text_node (m : NodeMap (list NodeRef)) k t :
  let m1 := if Map_has m k then m else Map_set m k [] in
  let m' := Map_set m1 k (default [] (Map_get m1 k) ++ [t]) in
  (∃ ma vs mb, m = ma ++ (k, vs) :: mb ∧ (k ∉ ma.*1) ∧ m' = ma ++ (k, vs ++ [t]) :: mb) ∨
  ((k ∉ m.*1) ∧ m' = m ++ [(k, [t])]).
Proof.
  simpl. unfold Map_has. destruct (Map_get m k) as [vs|] eqn:E.
  - left. apply Map_get_Some in E as (ma & mb & -> & Hk).
    exists ma, vs, mb. rewrite Map_get_present, Map_set_present by done. done.
  - right. apply Map_get_None in E. split; [done|].
    rewrite (Map_set_absent m) by done.
    rewrite Map_get_present, Map_set_present by done. done.
Qed.

Lemma blockElementToTextNodes_snoc doc ts t :
  blockElementToTextNodes doc (ts ++ [t]) = groupTextNode doc (blockElementToTextNodes doc ts) t.
Proof. unfold blockElementToTextNodes. by rewrite foldl_snoc. Qed.

(** The map the first loop builds: its keys are distinct, its entries hold
    together the Text nodes that have a containing block element, and each
    entry holds nodes of its own key only. *)
Lemma blockElementToTextNodes_groups doc ts :
  let m := blockElementToTextNodes doc ts in
  NoDup m.*1 ∧
  concat m.*2 ≡ₚ filter (λ t, is_Some (_findContainingBlockElement doc t)) ts ∧
  Forall (λ g, Forall (λ t, _findContainingBlockElement doc t = Some g.1) g.2) m.
Proof.
  simpl. induction ts as [|t ts IH] using rev_ind.
  - repeat split; constructor.
  - rewrite blockElementToTextNodes_snoc, filter_app.
    destruct IH as (Hkeys & Hperm & Hown).
    unfold groupTextNode.
    destruct (_findContainingBlockElement doc t) as [b|] eqn:Hb.
    + assert (filter (λ t, is_Some (_findContainingBlockElement doc t)) [t] = [t]) as ->.
      { rewrite filter_cons_True; [done|]. by rewrite Hb. }
      destruct (push_text_node (blockElementToTextNodes doc ts) b t)
        as [(ma & vs & mb & Em & Hk & ->)|(Hk & ->)].
      * rewrite Em in Hkeys, Hperm, Hown. split; [|split].
        -- by rewrite fmap_app in *.
        -- rewrite <- Hperm, !fmap_app, !concat_app. simpl.
           rewrite <- !(assoc_L (++)). do 2 f_equiv. apply Permutation_app_comm.
        -- rewrite Forall_app, Forall_cons in *. simpl in *.
           destruct Hown as (? & ? & ?). repeat split; try done.
           rewrite Forall_app. split; [done|]. by constructor.
      * split; [|split].
        -- rewrite fmap_app. simpl. apply NoDup_app. split; [done|].
           split; [|apply NoDup_singleton].
           intros x Hx ->%list_elem_of_singleton. done.
        -- rewrite fmap_app, concat_app. simpl. by rewrite Hperm.
        -- rewrite Forall_app. split; [done|]. repeat constructor. done.
    + assert (filter (λ t, is_Some (_findContainingBlockElement doc t)) [t] = []) as ->.
      { rewrite filter_cons_False; [done|]. rewrite Hb. by intros [? ?]. }
      by rewrite app_nil_r.
Qed.

(** ** The nearest block element *)

Lemma properAncestor_irrefl e : ¬ properAncestor e e.
Proof.
  intros (below & Hne & E). apply Hne.
  apply (f_equal length) in E. rewrite length_app in E.
  destruct below; [done|simpl in E; lia].
Qed.

Lemma properAncestor_asym a b : properAncestor a b → ¬ properAncestor b a.
Proof.
  intros (x & Hx & ->) (y & Hy & E).
  apply (f_equal length) in E. rewrite !length_app in E.
  destruct x; [done|]. simpl in E. lia.
Qed.

Lemma properAncestor_snoc a p x :
  properAncestor a (p ++ [x]) → (a = p ∨ properAncestor a p).
Proof.
  intros (below & Hne & E).
  destruct (exists_last Hne) as (l & y & ->).
  rewrite (assoc_L (++)) in E. apply app_inj_tail in E as [-> _].
  destruct l as [|z l]; [left; by rewrite app_nil_r|].
  right. by exists (z :: l).
Qed.

Lemma properAncestor_of_parent a p x :
  (a = p ∨ properAncestor a p) → properAncestor a (p ++ [x]).
Proof.
  intros [->|(below & _ & ->)].
  - by exists [x].
  - exists (below ++ [x]). split; [by destruct below|]. by rewrite (assoc_L (++)).
Qed.

Lemma parentElement_Some e : e ≠ [] → removelast e ≠ [] → parentElement e = Some (removelast e).
Proof.
  intros He Hp. unfold parentElement, parentNode.
  destruct e; [done|]. by destruct (removelast (n :: e)).
Qed.

Lemma parentElement_None e : e = [] ∨ removelast e = [] → parentElement e = None.
Proof.
  unfold parentElement, parentNode. intros [->| H]; [done|].
  destruct e; [done|]. by rewrite H.
Qed.

Lemma parentElement_cases e :
  (parentElement e = None ∧ (e = [] ∨ removelast e = [])) ∨
  (parentElement e = Some (removelast e) ∧ e ≠ [] ∧ removelast e ≠ []).
Proof.
  destruct e as [|i e]; [left; auto using parentElement_None|].
  destruct (removelast (i :: e)) eqn:E.
  - left. split; [|by right]. apply parentElement_None. by right.
  - right. rewrite <- E. split; [apply parentElement_Some; congruence|]. split; congruence.
Qed.

(** The loop returns, of the element it starts at and the elements above
    it, the first that matches. *)
Lemma findBlockLoop_first doc turns e b :
  e ≠ [] →
  findBlockLoop doc turns (Some e) = Some b →
  b ≠ [] ∧ (b = e ∨ properAncestor b e) ∧ matches doc b blockSelectors = true ∧
  ∀ e', properAncestor b e' → (e' = e ∨ properAncestor e' e) →
        matches doc e' blockSelectors = false.
Proof.
  revert e. induction turns as [|turns IH]; intros e He; simpl.
  - destruct (matches doc e blockSelectors) eqn:Hm; [|done].
    intros [= <-]. repeat split; auto.
    intros e' H1 [->|H2]; [by apply properAncestor_irrefl in H1|].
    by apply properAncestor_asym in H1.
  - destruct (matches doc e blockSelectors) eqn:Hm.
    + intros [= <-]. repeat split; auto.
      intros e' H1 [->|H2]; [by apply properAncestor_irrefl in H1|].
      by apply properAncestor_asym in H1.
    + destruct (parentElement_cases e) as [[-> _]|(-> & _ & Hp)]; [by destruct turns|].
      destruct (exists_last He) as (p & x & ->). rewrite removelast_last in *.
      intros (Hb & Hanc & Hmb & Hbetween)%IH; [|done].
      repeat split; auto.
      * right. by apply properAncestor_of_parent.
      * intros e' H1 [->|H2]; [done|].
        apply Hbetween; [done|]. by apply properAncestor_snoc in H2.
Qed.

(** The loop does not stop for want of turns: when it returns nothing, no
    element from the start upwards matches. *)
Lemma findBlockLoop_none doc turns e :
  length e ≤ S turns →
  findBlockLoop doc turns (Some e) = None →
  ∀ e', e' ≠ [] → (e' = e ∨ properAncestor e' e) → matches doc e' blockSelectors = false.
Proof.
  revert e. induction turns as [|turns IH]; intros e Hlen; simpl.
  - destruct (matches doc e blockSelectors) eqn:Hm; [done|].
    intros _ e' He' [->|(below & Hne & ->)]; [done|].
    rewrite length_app in Hlen. destruct e'; [done|]. destruct below; [done|].
    simpl in Hlen. lia.
  - destruct (matches doc e blockSelectors) eqn:Hm; [done|].
    destruct (parentElement_cases e) as [[-> Hroot]|(-> & He & Hp)].
    + intros _ e' He' [->|(below & Hne & ->)]; [done|].
      destruct Hroot as [Hroot|Hroot].
      * by destruct e'.
      * destruct (exists_last Hne) as (l & y & ->).
        rewrite (assoc_L (++)), removelast_last in Hroot.
        by destruct e'.
    + destruct (exists_last He) as (p & x & ->). rewrite removelast_last in *.
      intros Hnone e' He' [->|H2]; [done|].
      apply properAncestor_snoc in H2.
      apply (IH p); auto.
      rewrite length_app in Hlen. simpl in Hlen. lia.
Qed.

(** [_findContainingBlockElement] returns the nearest block-level ancestor
    element. *)
Lemma findContainingBlockElement_nearest doc t b :
  _findContainingBlockElement doc t = Some b → nearestBlockAncestor doc t b.
Proof.
  unfold _findContainingBlockElement.
  destruct (parentElement_cases t) as [[-> _]|(-> & Ht & Hp)]; [by destruct (length t)|].
  destruct (exists_last Ht) as (p & x & ->). rewrite removelast_last in *.
  intros (Hb & Hanc & Hmb & Hbetween)%findBlockLoop_first; [|done].
  split; [done|].
  split; [by apply properAncestor_of_parent|]. split; [done|].
  intros e H1 H2. apply Hbetween; [done|]. by apply properAncestor_snoc in H2.
Qed.

(** It returns null only when no element above the node matches. *)
Lemma findContainingBlockElement_none doc t :
  _findContainingBlockElement doc t = None →
  ∀ e, e ≠ [] → properAncestor e t → matches doc e blockSelectors = false.
Proof.
  unfold _findContainingBlockElement.
  destruct (parentElement_cases t) as [[_ Hroot]|(-> & Ht & Hp)].
  - intros _ e He (below & Hne & ->). destruct Hroot as [Hroot|Hroot].
    + by destruct e.
    + destruct (exists_last Hne) as (l & y & ->).
      rewrite (assoc_L (++)), removelast_last in Hroot. by destruct e.
  - destruct (exists_last Ht) as (p & x & ->). rewrite removelast_last in *.
    intros Hnone e He H2.
    apply properAncestor_snoc in H2.
    eapply findBlockLoop_none; [|exact Hnone|done|done].
    rewrite length_app. simpl. lia.
Qed.

(** ** Ranges that yield nothing *)

Lemma commonPrefix_same a : commonPrefix a a = a.
Proof. induction a as [|x a IH]; simpl; [done|]. by rewrite decide_True, IH. Qed.

(** When one Text node holds both boundary points, the TreeWalker is rooted
    at that node and returns nothing. *)
Lemma same_leaf_no_text_nodes doc range :
  startContainer range = endContainer range →
  isText doc (startContainer range) = true →
  _getTextNodesInRange doc range = [].
Proof.
  intros E Ht. unfold _getTextNodesInRange, commonAncestorContainer.
  rewrite <- E, commonPrefix_same.
  destruct (ownerDocument _); [|done].
  unfold treeWalkerTextNodes, isText in *.
  by destruct (nodeAt doc (startContainer range)) as [[d|tag cs]|].
Qed.

(** The group that holds the start boundary leaf alone: the loop sets the
    first offset and leaves the last offset at 0, and the range built from
    the two is the point at offset 0 of the leaf. *)
Lemma start_leaf_alone doc range r :
  let v := foldl (groupStep doc range) groupVarsInit [startContainer range] in
  firstTextOffset v = startOffset range ∧ lastTextOffset v = 0 ∧
  (paragraphRange doc v (startContainer range) (startContainer range) = Return r →
   r = mkRange (startContainer range) 0 (startContainer range) 0).
Proof.
  simpl. unfold groupStep. rewrite bool_decide_true by done. simpl.
  split; [done|]. split; [done|]. unfold paragraphRange; simpl.
  destruct (setStart doc createRange _ _) as [r1|] eqn:E1; simpl; [|done].
  intros E2. rewrite (setStart_setEnd _ _ _ _ _ _ _ E1 E2).
  unfold isBefore, position; simpl. rewrite lexCompare_snoc.
  destruct (Nat.compare_spec 0 (startOffset range)) as [<-| |]; try done. lia.
Qed.

Lemma no_block_no_groups doc ts :
  Forall (λ t, _findContainingBlockElement doc t = None) ts →
  blockElementToTextNodes doc ts = [].
Proof.
  induction ts as [|t ts IH] using rev_ind; [done|].
  rewrite Forall_app, Forall_singleton. intros [Hts Ht].
  rewrite blockElementToTextNodes_snoc, IH by done.
  unfold groupTextNode. by rewrite Ht.
Qed.

(** Without a block element above any of its Text nodes, a range yields no
    paragraph, whatever its text. *)
Lemma no_block_no_paragraph doc range contents :
  Forall (λ t, _findContainingBlockElement doc t = None) (_getTextNodesInRange doc range) →
  _getParagraphsFromRange doc range contents = [].
Proof.
  intros H. unfold _getParagraphsFromRange.
  destruct (Js.falsy _); [done|]. destruct (ownerDocument _); [|done].
  case_bool_decide; [done|]. by rewrite no_block_no_groups.
Qed.

Lemma getParagraphsFromRange_blank doc range contents :
  Js.isBlank (rangeToString doc range) = true →
  _getParagraphsFromRange doc range contents = [].
Proof.
  intros H. unfold _getParagraphsFromRange.
  apply trim_blank in H. rewrite H. done.
Qed.

Lemma getParagraphsFromRange_no_text_nodes doc range contents :
  _getTextNodesInRange doc range = [] →
  _getParagraphsFromRange doc range contents = [].
Proof.
  intros H. unfold _getParagraphsFromRange.
  destruct (Js.falsy _); [done|].
  destruct (ownerDocument _); [|done].
  by rewrite H.
Qed.

(** ** From groups to paragraphs *)

(** Every element of [omap f l] comes from an element of [l] of its own, in
    the same order. *)
Lemma omap_sources {A B} (f : A → option B) (l : list A) :
  ∃ used, used `sublist_of` l ∧ Forall2 (λ a b, f a = Some b) used (omap f l).
Proof.
  induction l as [|a l (used & Hsub & Hall)]; simpl.
  - exists []. split; constructor.
  - destruct (f a) as [b|] eqn:E.
    + exists (a :: used). split; [by apply sublist_skip|by constructor].
    + exists used. split; [by apply sublist_cons|done].
Qed.

(** ** The guards of the two methods *)

(** Goes through the tests the two methods make before their [try], in the
    order of the source; what is left is the case in which all pass. *)
Ltac through_guards this :=
  destruct (manager this) as [mgr|]; simpl; [|done];
  destruct (currentLocation mgr) as [[|[sec|] rest]|]; simpl; try done;
  destruct (mapping sec) as [m|]; simpl; [|done];
  destruct (truthyString (mappingStart m)) as [start|]; simpl; [|done];
  destruct (truthyString (mappingEnd m)) as [end_|]; simpl; [|done];
  destruct (viewsFind mgr (index sec)) as [view|]; simpl; [|done];
  destruct (contents view) as [cts|]; simpl; [|done];
  destruct (document cts) as [doc|]; simpl; [|done].

Section CurrentViewFacts.

Context {CFI : Type}.
Variable newEpubCFI : string → Exc CFI.
Variable toRange : CFI → Node → Exc (option Range).

Lemma getCurrentViewParagraphs_unfold this options :
  getCurrentViewParagraphs newEpubCFI toRange this options =
  match displayedPage this with
  | None => None
  | Some (doc, contents, start, end_) =>
      match visibleRange newEpubCFI toRange doc start end_ with
      | Return (Some range) => Some (_getParagraphsFromRange doc range contents)
      | _ => None
      end
  end.
Proof.
  unfold getCurrentViewParagraphs, displayedPage. through_guards this.
  by destruct (visibleRange _ _ _ _ _) as [[range|]|].
Qed.

Lemma getCurrentViewText_unfold this :
  getCurrentViewText newEpubCFI toRange this =
  match displayedPage this with
  | None => None
  | Some (doc, contents, start, end_) =>
      match visibleRange newEpubCFI toRange doc start end_ with
      | Return (Some range) => Some (mkViewText (rangeToString doc range) start end_)
      | _ => None
      end
  end.
Proof.
  unfold getCurrentViewText, displayedPage. through_guards this.
  by destruct (visibleRange _ _ _ _ _) as [[range|]|].
Qed.

(** A failing location leaves no range. *)
Lemma visibleRange_fails doc start end_ :
  locationFails newEpubCFI toRange doc start ∨ locationFails newEpubCFI toRange doc end_ →
  visibleRange newEpubCFI toRange doc start end_ = Throw ∨
  visibleRange newEpubCFI toRange doc start end_ = Return None.
Proof.
  unfold locationFails, visibleRange.
  destruct (newEpubCFI start) as [cs|]; simpl; [|by left].
  destruct (newEpubCFI end_) as [ce|]; simpl; [|by left].
  destruct (toRange cs doc) as [[rs|]|]; simpl;
    destruct (toRange ce doc) as [[re|]|]; simpl; intros [[]|[]]; auto.
Qed.

(** A range comes out only when both locations parse and resolve. *)
Lemma visibleRange_resolved doc start end_ range :
  visibleRange newEpubCFI toRange doc start end_ = Return (Some range) →
  ¬ locationFails newEpubCFI toRange doc start ∧ ¬ locationFails newEpubCFI toRange doc end_.
Proof.
  intros H; split; intros Hf.
  - destruct (visibleRange_fails doc start end_) as [E|E]; [by left|..]; congruence.
  - destruct (visibleRange_fails doc start end_) as [E|E]; [by right|..]; congruence.
Qed.

End CurrentViewFacts.

Section RangeOrder.

Context {CFI : Type}.
Variable newEpubCFI : string → Exc CFI.
Variable toRange : CFI → Node → Exc (option Range).

(** What the two methods make of the two resolved locations. *)
Lemma visibleRange_boundaries doc start end_ range :
  visibleRange newEpubCFI toRange doc start end_ = Return (Some range) →
  ∃ cs ce rs re,
    newEpubCFI start = Return cs ∧ newEpubCFI end_ = Return ce ∧
    toRange cs doc = Return (Some rs) ∧ toRange ce doc = Return (Some re) ∧
    range = if isBefore (rangeEnd re) (rangeStart rs)
            then mkRange (endContainer re) (endOffset re) (endContainer re) (endOffset re)
            else mkRange (startContainer rs) (startOffset rs) (endContainer re) (endOffset re).
Proof.
  unfold visibleRange.
  destruct (newEpubCFI start) as [cs|] eqn:Hcs; simpl; [|done].
  destruct (newEpubCFI end_) as [ce|] eqn:Hce; simpl; [|done].
  destruct (toRange cs doc) as [[rs|]|] eqn:Hrs; simpl; [| |done].
  2: { by destruct (toRange ce doc) as [[re|]|]. }
  destruct (toRange ce doc) as [[re|]|] eqn:Hre; simpl; [|done..].
  destruct (setStart doc createRange _ _) as [r1|] eqn:E1; simpl; [|done].
  destruct (setEnd doc r1 _ _) as [r2|] eqn:E2; simpl; [|done].
  intros [= <-]. exists cs, ce, rs, re. do 4 (split; [done|]).
  by apply (setStart_setEnd doc _ _ _ _ r1).
Qed.

(** The range handed to the extraction is in document order, also when
    the locations are not: then it is collapsed, not swapped. *)
Lemma visibleRange_ordered doc start end_ range :
  visibleRange newEpubCFI toRange doc start end_ = Return (Some range) →
  isAfter (rangeStart range) (rangeEnd range) = false.
Proof.
  intros (cs & ce & rs & re & _ & _ & _ & _ & ->)%visibleRange_boundaries.
  destruct (isBefore _ _) eqn:E.
  - unfold isAfter, position. by rewrite lexCompare_refl.
  - by rewrite isBefore_isAfter in E.
Qed.

(** With the start location after the end location, the range is the end
    boundary point alone, its text is empty and no paragraph comes out. *)
Lemma reversed_locations_yield_nothing doc contents start end_ range cs ce rs re :
  visibleRange newEpubCFI toRange doc start end_ = Return (Some range) →
  newEpubCFI start = Return cs → toRange cs doc = Return (Some rs) →
  newEpubCFI end_ = Return ce → toRange ce doc = Return (Some re) →
  isAfter (rangeStart rs) (rangeEnd re) = true →
  range = mkRange (endContainer re) (endOffset re) (endContainer re) (endOffset re) ∧
  rangeToString doc range = EmptyString ∧
  _getParagraphsFromRange doc range contents = [].
Proof.
  intros (cs' & ce' & rs' & re' & E1 & E2 & E3 & E4 & ->)%visibleRange_boundaries
    Hcs Hrs Hce Hre Hafter.
  rewrite Hcs in E1. injection E1 as <-. rewrite Hce in E2. injection E2 as <-.
  rewrite Hrs in E3. injection E3 as <-. rewrite Hre in E4. injection E4 as <-.
  rewrite isBefore_isAfter, Hafter.
  split; [done|]. rewrite rangeToString_collapsed. split; [done|].
  apply getParagraphsFromRange_blank. by rewrite rangeToString_collapsed.
Qed.

End RangeOrder.

(** ** What the two methods return *)
Section CurrentViewClaims.

Context {CFI : Type}.
Variable newEpubCFI : string → Exc CFI.
Variable toRange : CFI → Node → Exc (option Range).

(** Without a displayed page, both methods return null. *)
Lemma no_page_is_null this options :
  displayedPage this = None →
  getCurrentViewParagraphs newEpubCFI toRange this options = None ∧
  getCurrentViewText newEpubCFI toRange this = None.
Proof.
  intros H. by rewrite getCurrentViewParagraphs_unfold, getCurrentViewText_unfold, H.
Qed.



(** C10: both methods read the first located section only: dropping the
    later entries of the location and the views of all other sections
    changes neither result. *)
Theorem first_section_only m options :
  getCurrentViewText newEpubCFI toRange (mkRendition (Some m)) =
    getCurrentViewText newEpubCFI toRange (mkRendition (Some (firstSectionAlone m))) ∧
  getCurrentViewParagraphs newEpubCFI toRange (mkRendition (Some m)) options =
    getCurrentViewParagraphs newEpubCFI toRange (mkRendition (Some (firstSectionAlone m))) options.
Proof.
  assert (displayedPage (mkRendition (Some m)) =
          displayedPage (mkRendition (Some (firstSectionAlone m)))) as E.
  { unfold displayedPage, firstSectionAlone; simpl.
    destruct (currentLocation m) as [[|[sec|] rest]|]; simpl; try done.
    destruct (mapping sec) as [mp|]; simpl; [|done].
    destruct (truthyString (mappingStart mp)); simpl; [|done].
    destruct (truthyString (mappingEnd mp)); simpl; [|done].
    by rewrite decide_True. }
  by rewrite !getCurrentViewParagraphs_unfold, !getCurrentViewText_unfold, E.
Qed.

(** The result of [getCurrentViewParagraphs] does not depend on its
    options: [minLength] is read and never used. *)
Lemma minLength_is_ignored this options options' :
  getCurrentViewParagraphs newEpubCFI toRange this options =
  getCurrentViewParagraphs newEpubCFI toRange this options'.
Proof. by rewrite !getCurrentViewParagraphs_unfold. Qed.

End CurrentViewClaims.

(** ** The methods on the sample book *)
Section OnTheBook.

Import Sample Book.





(** Two blocks, each wholly on the page: one paragraph for each, in
    document order. *)
Example alpha_beta_paragraphs :
  fmap (M := list) text <$> getCurrentViewParagraphs (Sample.newEpubCFI table) Sample.toRange
             (view alphaBeta "a0" "b10") (mkOptions (Some 0))
    = Some ["Alpha text."; "Beta text."]%string.
Proof. vm_compute. reflexivity. Qed.

(** C1 on the code: the text of the range is [ABCDEFGHIJ], no Text node has
    a block-level ancestor, and [_getParagraphsFromRange] returns the empty
    array: there is no fallback paragraph. *)
Theorem no_fallback_paragraph :
  let range := mkRange firstText 0 secondText 5 in
  Js.trim (rangeToString noBlocks range) = "ABCDEFGHIJ"%string ∧
  _getTextNodesInRange noBlocks range = [firstText; secondText] ∧
  blockElementToTextNodes noBlocks (_getTextNodesInRange noBlocks range) = [] ∧
  _getParagraphsFromRange noBlocks range (contentsOf noBlocks) = [] ∧
  getCurrentViewParagraphs (Sample.newEpubCFI table) Sample.toRange
    (view noBlocks "a0" "b5") (mkOptions None) = Some [].
Proof. repeat split; vm_compute; reflexivity. Qed.

(** C2 on the code: with [minLength] 50, the paragraph of 31 code units is
    returned all the same. *)
Theorem short_paragraph_is_kept :
  getCurrentViewParagraphs (Sample.newEpubCFI table) Sample.toRange
    (view shortThenLong "a0" "bEnd") (mkOptions (Some 50))
  = Some [mkParagraph "A short paragraph of 31 chars.." "/0/0/0/0:0,/0/0/0/0:0";
          mkParagraph "A much longer paragraph, which has sixty code units in all.."
            "/0/0/1/0:0,/0/0/1/0:60"] ∧
  String.length "A short paragraph of 31 chars.." = 31.
Proof. split; vm_compute; reflexivity. Qed.

(** C3 on the code: with the start location after the end location, the
    range is not swapped but collapsed onto the earlier boundary point, and
    no paragraph comes out; the same two locations in order give two. *)
Theorem reversed_locations_collapse :
  visibleRange (Sample.newEpubCFI table) Sample.toRange alphaBeta "b5" "a3"
    = Return (Some (mkRange firstText 3 firstText 3)) ∧
  getCurrentViewParagraphs (Sample.newEpubCFI table) Sample.toRange
    (view alphaBeta "b5" "a3") (mkOptions None) = Some [] ∧
  visibleRange (Sample.newEpubCFI table) Sample.toRange alphaBeta "a3" "b5"
    = Return (Some (mkRange firstText 3 secondText 5)) ∧
  text <$> _getParagraphsFromRange alphaBeta (mkRange firstText 3 secondText 5)
             (contentsOf alphaBeta)
    = ["ha text."; "Beta"]%string.
Proof. repeat split; vm_compute; reflexivity. Qed.

(** C5 on the code: the group of the first paragraph holds the start
    boundary leaf alone; its text is clipped at the start offset 3, but the
    last offset stays 0 instead of the leaf's length 11, and the range built
    from the two offsets collapses at offset 0.  A leaf that holds both
    boundary points is never walked; the loop would clip it at the start
    only. *)
Theorem start_leaf_last_offset :
  let range := mkRange firstText 3 secondText 5 in
  blockElementToTextNodes alphaBeta (_getTextNodesInRange alphaBeta range)
    = [([0; 0; 0], [firstText]); ([0; 0; 1], [secondText])] ∧
  let v := foldl (groupStep alphaBeta range) groupVarsInit [firstText] in
  v = mkGroupVars "ha text." (Some firstText) (Some firstText) 3 0 ∧
  String.length (textContent alphaBeta firstText) = 11 ∧
  paragraphRange alphaBeta v firstText firstText = Return (mkRange firstText 0 firstText 0) ∧
  let inside := mkRange firstText 3 firstText 8 in
  rangeToString alphaBeta inside = "ha te"%string ∧
  _getParagraphsFromRange alphaBeta inside (contentsOf alphaBeta) = [] ∧
  elementText (groupStep alphaBeta inside groupVarsInit firstText) = "ha text."%string.
Proof. repeat split; vm_compute; reflexivity. Qed.

(** C7 on the code: the text of the page is [Hi World], the only paragraph
    is [World]; the two differ after normalisation, the text under the
    [span] is lost. *)
Theorem inline_text_is_lost :
  vtText <$> getCurrentViewText (Sample.newEpubCFI table) Sample.toRange
               (view inlineThenBlock "a0" "b5")
    = Some "Hi World"%string ∧
  fmap (M := list) text <$> getCurrentViewParagraphs (Sample.newEpubCFI table) Sample.toRange
             (view inlineThenBlock "a0" "b5") (mkOptions None)
    = Some ["World"%string] ∧
  Js.normalize (Js.join " " ["World"%string]) = "World"%string ∧
  Js.normalize "Hi World" = "Hi World"%string.
Proof. repeat split; vm_compute; reflexivity. Qed.

End OnTheBook.

(** ** The next-page predictor *)
Section PredictorClaims.

Import PagePredictor.

Variable Tree : Type.
Variable paragraphsOfWindow : Tree → nat * nat → list ParagraphUnit.

(** C6: on the cross-section path, when the load of the next unit does not
    complete within the timeout of 10, [getNextPageParagraphs] resolves with
    the empty list when the timer fires, after the one load request, through
    [Failed SectionLoadTimeout]. *)
Theorem timeout_yields_empty_list page minLength current nextUnit :
  totalPages page ≤ max_list (currentPages page) →
  completesWithin nextUnit defaultTimeout = false →
  let run := getNextPageParagraphs Tree paragraphsOfWindow page minLength current nextUnit in
  settlement run = Resolves [] ∧
  loadRequests run = 1 ∧
  settledAt run = 10 ∧
  trace run = [Idle; ComputingCrossSection; Failed SectionLoadTimeout; Idle].
Proof.
  intros Hlast Hlate. simpl.
  unfold getNextPageParagraphs, predictNext.
  destruct (Nat.ltb_spec (max_list (currentPages page)) (totalPages page)) as [?|_]; [lia|].
  unfold race. destruct nextUnit as [time root|]; [rewrite Hlate|]; done.
Qed.

End PredictorClaims.

(** Page 5 of 5 and a load that never completes. *)
Lemma timeout_yields_empty_list_witness :
  PagePredictor.settlement
    (PagePredictor.getNextPageParagraphs unit
       (λ _ _, [PagePredictor.mkParagraphUnit "First page of the next unit." "s" "e"])
       (PagePredictor.mkPageState 600 5 [5]) 50 () PagePredictor.NeverCompletes)
  = PagePredictor.Resolves [].
Proof.
  apply (timeout_yields_empty_list unit _ (PagePredictor.mkPageState 600 5 [5])
           50 () PagePredictor.NeverCompletes).
  - simpl. lia.
  - reflexivity.
Defined.

(** * Further properties of the extraction *)

(** ** Trimmed texts *)

Lemma trimStart_head s :
  Js.trimStart s = EmptyString ∨
  ∃ c t, Js.trimStart s = String c t ∧ Js.isWhiteSpace c = false.
Proof.
  induction s as [|c s IH]; simpl; [by left|].
  destruct (Js.isWhiteSpace c) eqn:E; [exact IH|]. right. by exists c, s.
Qed.

Lemma trimEnd_head c s :
  Js.isWhiteSpace c = false → ∃ t, Js.trimEnd (String c s) = String c t.
Proof.
  intros E. simpl. rewrite E. destruct (Js.trimEnd s); eauto.
Qed.

Lemma trimEnd_idemp s : Js.trimEnd (Js.trimEnd s) = Js.trimEnd s.
Proof.
  induction s as [|c s IH]; simpl; [done|].
  destruct (Js.trimEnd s) as [|d t] eqn:E.
  - destruct (Js.isWhiteSpace c) eqn:Ec; simpl; [done|]. by rewrite Ec.
  - simpl in *. by rewrite IH.
Qed.

(** [trim] changes nothing in a string it has returned. *)
Lemma trim_idemp s : Js.trim (Js.trim s) = Js.trim s.
Proof.
  unfold Js.trim. destruct (trimStart_head s) as [->|(c & t & -> & Ec)]; [done|].
  destruct (trimEnd_head c t Ec) as (u & Eu). rewrite Eu.
  cbn [Js.trimStart]. rewrite Ec, <- Eu. apply trimEnd_idemp.
Qed.

(** The paragraph the second loop pushes for a group has a text that is
    trimmed and not empty. *)
Lemma paragraphOfGroup_text doc range contents ts p :
  paragraphOfGroup doc range contents ts = Some p →
  text p ≠ EmptyString ∧ Js.trim (text p) = text p ∧
  text p = Js.trim (elementText (foldl (groupStep doc range) groupVarsInit ts)).
Proof.
  unfold paragraphOfGroup.
  destruct (firstTextNode _) as [first|]; [|done].
  destruct (lastTextNode _) as [last|]; [|done].
  destruct (Js.falsy _) eqn:Ef; [done|].
  destruct (paragraphRange _ _ _ _) as [r|]; simpl; [|done].
  destruct (cfiFromRange contents r) as [cfi|]; simpl; [|done].
  intros [= <-]; simpl. split; [|split; [apply trim_idemp|done]].
  intros E. by rewrite E in Ef.
Qed.

(** X1: every paragraph [_getParagraphsFromRange] returns has a text that is
    not empty, holds more than white space, and is left as it is by
    [trim]. *)
Theorem paragraph_texts_are_trimmed doc range contents :
  Forall (λ p, text p ≠ EmptyString ∧ Js.isBlank (text p) = false ∧ Js.trim (text p) = text p)
    (_getParagraphsFromRange doc range contents).
Proof.
  assert (∀ gs, Forall (λ p, text p ≠ EmptyString ∧ Js.isBlank (text p) = false ∧
                             Js.trim (text p) = text p)
                  (omap (λ entry : NodeRef * list NodeRef,
                           paragraphOfGroup doc range contents entry.2) gs)) as Hgs.
  { intros gs. apply Forall_forall. intros p (g & _ & Hp)%list_elem_of_omap.
    apply paragraphOfGroup_text in Hp as (Hne & Htrim & _).
    split; [done|]. split; [|done].
    destruct (Js.isBlank (text p)) eqn:E; [|done].
    apply trim_blank in E. congruence. }
  unfold _getParagraphsFromRange.
  destruct (Js.falsy _); [constructor|].
  destruct (ownerDocument _); [|constructor].
  case_bool_decide; [constructor|]. apply Hgs.
Qed.

(** ** The entries of the map *)






(** ** The two methods on a page *)

Section FurtherCurrentView.

Context {CFI : Type}.
Variable newEpubCFI : string → Exc CFI.
Variable toRange : CFI → Node → Exc (option Range).

(** X3: the two methods return null in the same states. *)
Theorem text_and_paragraphs_null_together this options :
  getCurrentViewText newEpubCFI toRange this = None ↔
  getCurrentViewParagraphs newEpubCFI toRange this options = None.
Proof.
  rewrite getCurrentViewText_unfold, getCurrentViewParagraphs_unfold.
  destruct (displayedPage this) as [[[[doc contents] start] end_]|]; [|done].
  by destruct (visibleRange _ _ _ _ _) as [[range|]|].
Qed.

(** X4: with the start location after the end location, the page text is
    empty and there is no paragraph. *)
Theorem reversed_locations_give_an_empty_page this options doc contents start end_
    range cs ce rs re :
  displayedPage this = Some (doc, contents, start, end_) →
  visibleRange newEpubCFI toRange doc start end_ = Return (Some range) →
  newEpubCFI start = Return cs → toRange cs doc = Return (Some rs) →
  newEpubCFI end_ = Return ce → toRange ce doc = Return (Some re) →
  isAfter (rangeStart rs) (rangeEnd re) = true →
  getCurrentViewText newEpubCFI toRange this = Some (mkViewText EmptyString start end_) ∧
  getCurrentViewParagraphs newEpubCFI toRange this options = Some [].
Proof.
  intros Hpage Hrange Hcs Hrs Hce Hre Hafter.
  destruct (reversed_locations_yield_nothing newEpubCFI toRange doc contents start end_
              range cs ce rs re Hrange Hcs Hrs Hce Hre Hafter) as (_ & Htext & Hps).
  by rewrite getCurrentViewText_unfold, getCurrentViewParagraphs_unfold, Hpage, Hrange,
    Htext, Hps.
Qed.

(** X5: a page that begins and ends in one and the same Text node has a text,
    the part of the node between the two offsets, and no paragraph. *)
Theorem page_inside_one_text_node this options doc contents start end_ range :
  displayedPage this = Some (doc, contents, start, end_) →
  visibleRange newEpubCFI toRange doc start end_ = Return (Some range) →
  startContainer range = endContainer range →
  isText doc (startContainer range) = true →
  getCurrentViewText newEpubCFI toRange this
    = Some (mkViewText
              (String.substring (startOffset range) (endOffset range - startOffset range)
                 (textContent doc (startContainer range)))
              start end_) ∧
  getCurrentViewParagraphs newEpubCFI toRange this options = Some [].
Proof.
  intros Hpage Hrange Hsame Htext.
  rewrite getCurrentViewText_unfold, getCurrentViewParagraphs_unfold, Hpage, Hrange.
  rewrite getParagraphsFromRange_no_text_nodes by by apply same_leaf_no_text_nodes.
  split; [|done]. unfold rangeToString.
  by rewrite bool_decide_true, Htext.
Qed.

(** X6: a page none of whose Text nodes has a block element above it has
    its text and no paragraph: [getCurrentViewText] returns the text of the
    range, [getCurrentViewParagraphs] the empty array. *)
Theorem inline_only_page_has_no_paragraph this options doc contents start end_ range :
  displayedPage this = Some (doc, contents, start, end_) →
  visibleRange newEpubCFI toRange doc start end_ = Return (Some range) →
  Forall (λ t, _findContainingBlockElement doc t = None) (_getTextNodesInRange doc range) →
  getCurrentViewText newEpubCFI toRange this
    = Some (mkViewText (rangeToString doc range) start end_) ∧
  getCurrentViewParagraphs newEpubCFI toRange this options = Some [].
Proof.
  intros Hpage Hrange Hnone.
  rewrite getCurrentViewText_unfold, getCurrentViewParagraphs_unfold, Hpage, Hrange.
  by rewrite no_block_no_paragraph.
Qed.

End FurtherCurrentView.

(** ** Tree order *)

#[global] Instance precedes_trans : Transitive precedes.
Proof. intros a b c. apply lexCompare_trans. Qed.

Lemma precedes_irrefl a : ¬ precedes a a.
Proof. unfold precedes. by rewrite lexCompare_refl. Qed.

Lemma precedes_asym a b : precedes a b → ¬ precedes b a.
Proof. unfold precedes. intros H. by rewrite lexCompare_antisym, H. Qed.

#[global] Instance precedes_antisym : AntiSymm (=) precedes.
Proof. intros a b H1 H2. by apply precedes_asym in H1. Qed.

Lemma lexCompare_app a x y : lexCompare (a ++ x) (a ++ y) = lexCompare x y.
Proof. induction a as [|i a IH]; simpl; [done|]. by rewrite Nat.compare_refl. Qed.

Lemma lexCompare_Gt a b : lexCompare a b = Gt ↔ precedes b a.
Proof.
  unfold precedes. rewrite (lexCompare_antisym a b). by destruct (lexCompare a b).
Qed.

Lemma StronglySorted_filter {A} (R : relation A) (P : A → Prop) `{∀ x, Decision (P x)} l :
  StronglySorted R l → StronglySorted R (filter P l).
Proof.
  induction 1 as [|x l Hl IH Hx]; [constructor|].
  destruct (decide (P x)).
  - rewrite filter_cons_True by done. constructor; [done|].
    rewrite Forall_forall in Hx |- *. intros y [_ Hy]%list_elem_of_filter. auto.
  - by rewrite filter_cons_False.
Qed.

Lemma StronglySorted_NoDup l : StronglySorted precedes l → NoDup l.
Proof.
  induction 1 as [|x l Hl IH Hx]; constructor; [|done].
  intros Hin. rewrite Forall_forall in Hx. by apply (precedes_irrefl x), Hx.
Qed.

(** Two lists in tree order with the same elements are the same list. *)
Lemma sorted_same_elements l1 l2 :
  StronglySorted precedes l1 → StronglySorted precedes l2 →
  (∀ x, x ∈ l1 ↔ x ∈ l2) → l1 = l2.
Proof.
  intros H1 H2 Hel. apply (StronglySorted_unique precedes); [done..|].
  apply NoDup_Permutation; auto using StronglySorted_NoDup.
Qed.

(** ** The Text nodes of a tree *)

Lemma belowChildren_elem collect i cs x :
  x ∈ belowChildren collect i cs ↔
  ∃ k c r, cs !! k = Some c ∧ r ∈ collect c ∧ x = (i + k) :: r.
Proof.
  revert i. induction cs as [|c cs IH]; intros i; simpl.
  - split; [by intros ?%elem_of_nil|]. by intros (k & c & r & ? & _).
  - rewrite elem_of_app, list_elem_of_fmap, IH. split.
    + intros [(r & -> & Hr)|(k & c' & r & Hk & Hr & ->)].
      * exists 0, c, r. by rewrite Nat.add_0_r.
      * exists (S k), c', r. by rewrite Nat.add_succ_r.
    + intros ([|k] & c' & r & Hk & Hr & ->); simpl in Hk.
      * left. injection Hk as <-. exists r. by rewrite Nat.add_0_r.
      * right. exists k, c', r. by rewrite Nat.add_succ_r.
Qed.

(** [textNodesOf] lists the references of the Text nodes, and only them. *)
Lemma textNodesOf_spec n r : r ∈ textNodesOf n ↔ ∃ d, nodeAt n r = Some (Text d).
Proof.
  revert r. induction n as [d|tag cs IH] using Node_tree_ind; intros r; simpl.
  - rewrite list_elem_of_singleton. destruct r; split; try done; eauto.
    by intros [? ?].
  - rewrite belowChildren_elem. split.
    + intros (k & c & r' & Hk & Hr & ->). simpl. rewrite Hk. simpl.
      rewrite Forall_forall in IH. apply IH; [|done]. by eapply list_elem_of_lookup_2.
    + destruct r as [|k r']; simpl; [by intros [? ?]|].
      destruct (cs !! k) as [c|] eqn:Hk; simpl; [|by intros [? ?]].
      intros Hd. exists k, c, r'. split; [done|]. split; [|done].
      rewrite Forall_forall in IH. apply IH; [|done]. by eapply list_elem_of_lookup_2.
Qed.

Lemma nodeAt_app n a b : nodeAt n (a ++ b) = nodeAt n a ≫= λ m, nodeAt m b.
Proof.
  revert n. induction a as [|i a IH]; intros n; simpl; [done|].
  destruct n as [d|tag cs]; [done|].
  destruct (cs !! i) as [c|]; simpl; [apply IH|done].
Qed.

(** A Text node has no node below it. *)
Lemma nothing_below_text doc t d below :
  nodeAt doc t = Some (Text d) → below ≠ [] → nodeAt doc (t ++ below) = None.
Proof.
  intros Ht Hb. rewrite nodeAt_app, Ht. simpl. by destruct below.
Qed.

Lemma belowChildren_sorted collect i cs :
  Forall (λ c, StronglySorted precedes (collect c)) cs →
  StronglySorted precedes (belowChildren collect i cs).
Proof.
  intros H. revert i. induction H as [|c cs Hc _ IH]; intros i; simpl; [constructor|].
  apply StronglySorted_app_2; [| |apply IH].
  - intros x1 x2 (r & -> & _)%list_elem_of_fmap Hx2.
    apply belowChildren_head in Hx2 as (j & r' & Hj & ->).
    unfold precedes; simpl. by rewrite (proj2 (Nat.compare_lt_iff i j)) by lia.
  - apply StronglySorted_fmap with (R1 := precedes); [|done].
    intros x y Hxy. unfold precedes in *; simpl. by rewrite Nat.compare_refl.
Qed.

(** [textNodesOf] lists the Text nodes in tree order. *)
Lemma textNodesOf_sorted n : StronglySorted precedes (textNodesOf n).
Proof.
  induction n as [d|tag cs IH] using Node_tree_ind; simpl.
  - repeat constructor.
  - by apply belowChildren_sorted.
Qed.

(** [_getTextNodesInRange] returns its nodes in tree order. *)
Lemma walked_nodes doc range : StronglySorted precedes (_getTextNodesInRange doc range).
Proof.
  unfold _getTextNodesInRange, treeWalkerTextNodes.
  destruct (ownerDocument _); [|constructor].
  destruct (nodeAt doc (commonAncestorContainer range)) as [[d|tag cs]|]; try constructor.
  apply StronglySorted_filter.
  apply StronglySorted_fmap with (R1 := precedes); [|apply textNodesOf_sorted].
  intros x y Hxy. unfold precedes. by rewrite lexCompare_app.
Qed.

(** X7: [_getTextNodesInRange] returns Text nodes only, each of which
    intersects the range and lies below the common ancestor container, and
    it returns them in tree order. *)
Theorem walked_nodes_are_text_in_tree_order doc range :
  Forall (λ t, isText doc t = true ∧ intersectsNode range t = true ∧
               properAncestor (commonAncestorContainer range) t)
    (_getTextNodesInRange doc range) ∧
  StronglySorted precedes (_getTextNodesInRange doc range).
Proof.
  split; [|apply walked_nodes].
  unfold _getTextNodesInRange, treeWalkerTextNodes.
  destruct (ownerDocument _); [|constructor].
  destruct (nodeAt doc (commonAncestorContainer range)) as [[d|tag cs]|] eqn:Hca;
    try constructor.
  apply Forall_forall. intros t [Hi Ht]%list_elem_of_filter.
  apply list_elem_of_fmap in Ht as (r & -> & Hr).
  assert (r ≠ []) as Hne.
  { intros ->. apply textNodesOf_spec in Hr as [d Hd]. done. }
  apply textNodesOf_spec in Hr as [d Hd].
  split; [|split].
  - unfold isText. by rewrite nodeAt_app, Hca; simpl; rewrite Hd.
  - by destruct (intersectsNode range _).
  - by exists r.
Qed.


(** ** Boundary points in Text nodes *)

Lemma commonPrefix_prefix_l a b : commonPrefix a b `prefix_of` a.
Proof.
  revert b. induction a as [|x a IH]; intros [|y b]; simpl; try apply prefix_nil.
  case_decide; [|apply prefix_nil]. by apply prefix_cons.
Qed.

Lemma commonPrefix_prefix_r a b : commonPrefix a b `prefix_of` b.
Proof.
  revert b. induction a as [|x a IH]; intros [|y b]; simpl; try apply prefix_nil.
  case_decide as E; [|apply prefix_nil]. subst. by apply prefix_cons.
Qed.

(** What lies between two nodes in tree order lies below every node above
    both. *)
Lemma between_has_prefix p s t e :
  p `prefix_of` s → p `prefix_of` e → precedes s t → precedes t e → p `prefix_of` t.
Proof.
  unfold precedes. revert s t e. induction p as [|i p IH]; intros s t e; [intros; apply prefix_nil|].
  intros [s' ->] [e' ->]. destruct t as [|j t]; simpl; [done|].
  destruct (Nat.compare_spec i j) as [<-| |]; [|intros _|done].
  - rewrite Nat.compare_refl. intros H1 H2. apply prefix_cons.
    eapply IH; [by eexists|by eexists|done..].
  - destruct (Nat.compare_spec j i); try done; lia.
Qed.

(** Two different references, neither of them above the other, part at
    some child index. *)
Lemma apart_split (a b : NodeRef) :
  ¬ a `prefix_of` b → ¬ b `prefix_of` a →
  ∃ p i j a' b', a = p ++ i :: a' ∧ b = p ++ j :: b' ∧ i ≠ j.
Proof.
  revert b. induction a as [|i a IH]; intros b Ha Hb.
  - destruct Ha. apply prefix_nil.
  - destruct b as [|j b]; [destruct Hb; apply prefix_nil|].
    destruct (decide (i = j)) as [->|Hij].
    + destruct (IH b) as (p & i' & j' & a' & b' & -> & -> & Hne).
      * intros H. apply Ha. by apply prefix_cons.
      * intros H. apply Hb. by apply prefix_cons.
      * by exists (j :: p), i', j', a', b'.
    + by exists [], i, j, a, b.
Qed.

Lemma text_nodes_apart doc t s dt ds :
  nodeAt doc t = Some (Text dt) → nodeAt doc s = Some (Text ds) → t ≠ s →
  ∃ p i j t' s', t = p ++ i :: t' ∧ s = p ++ j :: s' ∧ i ≠ j.
Proof.
  intros Ht Hs Hne. apply apart_split.
  - intros [k ->]. destruct k; [by rewrite app_nil_r in Hne|].
    by rewrite (nothing_below_text doc t dt) in Hs.
  - intros [k ->]. destruct k; [by rewrite app_nil_r in Hne|].
    by rewrite (nothing_below_text doc s ds) in Ht.
Qed.

Lemma lexCompare_apart p i j a b : i ≠ j → lexCompare (p ++ i :: a) (p ++ j :: b) = (i ?= j).
Proof.
  intros Hij. rewrite lexCompare_app. simpl.
  destruct (Nat.compare_spec i j); done.
Qed.

(** Against a boundary point in another Text node, a point in a Text node
    stands as the two nodes stand in tree order. *)
Lemma position_in_other_text doc t s dt ds x y :
  nodeAt doc t = Some (Text dt) → nodeAt doc s = Some (Text ds) → t ≠ s →
  lexCompare (t ++ x) (s ++ y) = lexCompare t s ∧ lexCompare t s ≠ Eq.
Proof.
  intros Ht Hs Hne.
  destruct (text_nodes_apart doc t s dt ds Ht Hs Hne) as (p & i & j & t' & s' & -> & -> & Hij).
  rewrite <- !(assoc_L (++)). simpl. rewrite !lexCompare_apart by done.
  split; [done|]. destruct (Nat.compare_spec i j); done.
Qed.

(** The point just behind a Text node is after a point in another Text
    node exactly when the node itself comes after that node. *)
Lemma behind_text_after doc parent idx s dt ds y :
  nodeAt doc (parent ++ [idx]) = Some (Text dt) → nodeAt doc s = Some (Text ds) →
  parent ++ [idx] ≠ s →
  lexCompare (parent ++ [idx + 1]) (s ++ y) = Gt ↔ precedes s (parent ++ [idx]).
Proof.
  intros Ht Hs Hne. unfold precedes.
  destruct (text_nodes_apart doc _ s dt ds Ht Hs Hne) as (p & i & j & t' & s' & Et & -> & Hij).
  rewrite Et, lexCompare_apart by done.
  destruct t' as [|z t'] using rev_ind.
  - apply app_inj_tail in Et as [-> ->].
    rewrite <- (assoc_L (++)), lexCompare_app. simpl.
    destruct (Nat.compare_spec (i + 1) j), (Nat.compare_spec j i); try lia; try done.
    by destruct (s' ++ y).
  - clear IHt'. rewrite app_comm_cons, (assoc_L (++)) in Et. apply app_inj_tail in Et as [-> ->].
    rewrite <- !(assoc_L (++)). simpl. rewrite lexCompare_apart by done.
    destruct (Nat.compare_spec i j), (Nat.compare_spec j i); try lia; done.
Qed.

Section SpanningRange.

Variable doc : Node.
Variable range : Range.
Hypothesis Hspan : spansTextNodes doc range.

Lemma span_start_not_end : startContainer range ≠ endContainer range.
Proof.
  destruct Hspan as (_ & _ & Hse & _). intros E. rewrite E in Hse.
  by apply precedes_irrefl in Hse.
Qed.

Lemma text_ref_split t d :
  nodeAt doc t = Some (Text d) →
  t = removelast t ++ [List.last t 0] ∧ parentNode t = Some (removelast t).
Proof.
  intros Ht. destruct t as [|i t].
  - exfalso. destruct Hspan as ((ds & Hs) & (de & He & _) & Hse & _).
    injection Ht as Hdoc. rewrite Hdoc in Hs, He.
    destruct (startContainer range), (endContainer range); done.
  - split; [by apply app_removelast_last|done].
Qed.

Lemma lexCompare_below a x : x ≠ [] → lexCompare a (a ++ x) = Lt.
Proof.
  intros Hx. rewrite <- (app_nil_r a) at 1. rewrite lexCompare_app. by destruct x.
Qed.

Lemma is_Lt c : match c with Lt => true | _ => false end = true ↔ c = Lt.
Proof. by destruct c. Qed.

Lemma is_Gt c : match c with Gt => true | _ => false end = true ↔ c = Gt.
Proof. by destruct c. Qed.

(** A Text node intersects the range when it is the start container, the
    end container, or between the two in tree order. *)
Lemma span_intersects t d :
  nodeAt doc t = Some (Text d) →
  intersectsNode range t = true ↔
  t = startContainer range ∨ t = endContainer range ∨
  (precedes (startContainer range) t ∧ precedes t (endContainer range)).
Proof.
  intros Ht. pose proof span_start_not_end as Hne.
  destruct Hspan as ((ds & Hs) & (de & He & Heo) & Hse & _).
  destruct (text_ref_split t d Ht) as [Et Hp].
  unfold intersectsNode. rewrite Hp.
  remember (removelast t) as parent eqn:Eparent.
  remember (List.last t 0) as idx eqn:Eidx. clear Eparent Eidx Hp. subst t.
  unfold isBefore, isAfter, position, rangeStart, rangeEnd. simpl.
  rewrite andb_true_iff, is_Lt, is_Gt.
  assert (lexCompare (parent ++ [idx]) (endContainer range ++ [endOffset range]) = Lt ↔
          parent ++ [idx] = endContainer range ∨
          precedes (parent ++ [idx]) (endContainer range)) as ->.
  { destruct (decide (parent ++ [idx] = endContainer range)) as [E|E].
    - rewrite <- E. rewrite lexCompare_below by done. tauto.
    - destruct (position_in_other_text doc _ _ d de [] [endOffset range] Ht He E) as [Hc _].
      rewrite app_nil_r in Hc. rewrite Hc. unfold precedes. tauto. }
  assert (lexCompare (parent ++ [idx + 1]) (startContainer range ++ [startOffset range]) = Gt ↔
          parent ++ [idx] = startContainer range ∨
          precedes (startContainer range) (parent ++ [idx])) as ->.
  { destruct (decide (parent ++ [idx] = startContainer range)) as [E|E].
    - rewrite <- E. rewrite <- (assoc_L (++)), lexCompare_app. simpl.
      rewrite (proj2 (Nat.compare_gt_iff (idx + 1) idx)) by lia. tauto.
    - rewrite (behind_text_after doc parent idx _ d ds _ Ht Hs E). tauto. }
  split.
  - intros [[->|H1] [E2|H2]]; auto.
  - intros [->|[->|[H1 H2]]]; auto.
Qed.

(** A Text node is contained in the range when it is between the two
    containers in tree order. *)
Lemma span_contained t d :
  nodeAt doc t = Some (Text d) →
  contained doc range t = true ↔
  precedes (startContainer range) t ∧ precedes t (endContainer range).
Proof.
  intros Ht. destruct Hspan as ((ds & Hs) & (de & He & Heo) & Hse & _).
  unfold contained. rewrite Ht.
  unfold isBefore, isAfter, position, rangeStart, rangeEnd. simpl.
  rewrite andb_true_iff, is_Lt, is_Gt.
  assert (lexCompare (t ++ [0]) (startContainer range ++ [startOffset range]) = Gt ↔
          precedes (startContainer range) t) as ->.
  { destruct (decide (t = startContainer range)) as [->|E].
    - rewrite lexCompare_snoc. split; [|by intros ?%precedes_irrefl].
      destruct (Nat.compare_spec 0 (startOffset range)); try done. lia.
    - destruct (position_in_other_text doc _ _ d ds [0] [startOffset range] Ht Hs E) as [-> _].
      apply lexCompare_Gt. }
  assert (lexCompare (t ++ [String.length d]) (endContainer range ++ [endOffset range]) = Lt ↔
          precedes t (endContainer range)) as ->; [|done].
  destruct (decide (t = endContainer range)) as [->|E].
  - rewrite lexCompare_snoc. split; [|by intros ?%precedes_irrefl].
    assert (d = de) as -> by congruence.
    destruct (Nat.compare_spec (String.length de) (endOffset range)); try done. lia.
  - by destruct (position_in_other_text doc _ _ d de [String.length d] [endOffset range]
                   Ht He E) as [-> _].
Qed.

End SpanningRange.

(** ** The walk over a range between two Text nodes *)

Lemma span_common_ancestor doc range :
  spansTextNodes doc range →
  ∃ tag cs, nodeAt doc (commonAncestorContainer range) = Some (Element tag cs).
Proof.
  intros Hspan. pose proof (span_start_not_end doc range Hspan) as Hne.
  destruct Hspan as ((ds & Hs) & (de & He & _) & _).
  destruct (commonPrefix_prefix_l (startContainer range) (endContainer range)) as [ks Eks].
  destruct (commonPrefix_prefix_r (startContainer range) (endContainer range)) as [ke Eke].
  fold (commonAncestorContainer range) in Eks, Eke.
  rewrite Eks, nodeAt_app in Hs. rewrite Eke, nodeAt_app in He.
  destruct (nodeAt doc (commonAncestorContainer range)) as [[d|tag cs]|]; simpl in *;
    [|by eauto|done].
  exfalso. apply Hne. destruct ks, ke; try done. by rewrite Eks, Eke.
Qed.

(** What [_getTextNodesInRange] returns on such a range: the Text nodes
    below the common ancestor container that intersect the range. *)
Lemma span_walked_elem doc range x :
  spansTextNodes doc range →
  x ∈ _getTextNodesInRange doc range ↔
  (∃ d, nodeAt doc x = Some (Text d)) ∧ commonAncestorContainer range `prefix_of` x ∧
  intersectsNode range x = true.
Proof.
  intros Hspan. destruct (span_common_ancestor doc range Hspan) as (tag & cs & Hca).
  destruct Hspan as (_ & _ & _ & Hdoc).
  unfold _getTextNodesInRange, treeWalkerTextNodes. rewrite Hca.
  destruct (commonAncestorContainer range) as [|i ca] eqn:Eca; [done|]. simpl ownerDocument.
  rewrite list_elem_of_filter, list_elem_of_fmap. split.
  - intros [Hi (r & -> & Hr)]. apply textNodesOf_spec in Hr as [d Hd].
    split; [|split].
    + exists d. by rewrite nodeAt_app, Hca.
    + by eexists.
    + by destruct (intersectsNode range _).
  - intros ([d Hd] & [r ->] & Hi). split; [by rewrite Hi|].
    exists r. split; [done|]. apply textNodesOf_spec. exists d.
    by rewrite nodeAt_app, Hca in Hd.
Qed.

(** On a range from one Text node to a later one, [_getTextNodesInRange]
    returns the start container, then the Text nodes the range contains,
    then the end container. *)
Lemma span_walk doc range :
  spansTextNodes doc range →
  _getTextNodesInRange doc range
  = startContainer range
      :: filter (λ t, contained doc range t) (textNodesOf doc) ++ [endContainer range].
Proof.
  intros Hspan. pose proof Hspan as ((ds & Hs) & (de & He & _) & Hse & _).
  assert (∀ x, x ∈ filter (λ t, contained doc range t) (textNodesOf doc) ↔
               (∃ d, nodeAt doc x = Some (Text d)) ∧
               precedes (startContainer range) x ∧ precedes x (endContainer range)) as Hin.
  { intros x. rewrite list_elem_of_filter, textNodesOf_spec. split.
    - intros [Hc [d Hd]]. split; [by eauto|].
      apply (span_contained doc range Hspan x d Hd). by destruct (contained doc range x).
    - intros [[d Hd] Hx]. split; [|by eauto].
      apply (span_contained doc range Hspan x d Hd) in Hx. by rewrite Hx. }
  apply sorted_same_elements.
  - apply walked_nodes.
  - apply StronglySorted_cons. split.
    + apply Forall_app. split; [|by repeat constructor].
      apply Forall_forall. intros x Hx. by apply Hin in Hx as (_ & ? & _).
    + apply StronglySorted_app_2; [| |repeat constructor].
      * intros x1 x2 Hx1 ->%list_elem_of_singleton. by apply Hin in Hx1 as (_ & _ & ?).
      * apply StronglySorted_filter, textNodesOf_sorted.
  - intros x. rewrite (span_walked_elem doc range x Hspan).
    rewrite elem_of_cons, elem_of_app, list_elem_of_singleton, Hin. split.
    + intros ([d Hd] & _ & Hi).
      apply (span_intersects doc range Hspan x d Hd) in Hi as [->|[->|Hx]]; eauto.
    + intros Hx.
      assert (∃ d, nodeAt doc x = Some (Text d)) as [d Hd].
      { destruct Hx as [->|[([d Hd] & _)| ->]]; eauto. }
      assert (intersectsNode range x = true) as Hi.
      { apply (span_intersects doc range Hspan x d Hd).
        destruct Hx as [->|[(_ & Hx)| ->]]; auto. }
      split; [by eauto|]. split; [|done].
      unfold commonAncestorContainer.
      destruct Hx as [->|[(_ & H1 & H2)| ->]].
      * apply commonPrefix_prefix_l.
      * eapply between_has_prefix; [apply commonPrefix_prefix_l|apply commonPrefix_prefix_r|done..].
      * apply commonPrefix_prefix_r.
Qed.

(** X8: on a range from one Text node to a later one,
    [_getTextNodesInRange] returns the start container, then the Text nodes
    the range contains, then the end container. *)
Theorem span_walked_nodes doc range :
  spansTextNodes doc range →
  _getTextNodesInRange doc range
  = startContainer range
      :: filter (λ t, contained doc range t) (textNodesOf doc) ++ [endContainer range].
Proof. apply span_walk. Qed.


(** ** The text of a range and the texts of its groups *)

Lemma append_nil_r s : s +:+ EmptyString = s.
Proof.
  induction s as [|c s IH]; [done|].
  change (String c (s +:+ EmptyString) = String c s). by rewrite IH.
Qed.

Lemma append_assoc s1 s2 s3 : (s1 +:+ s2) +:+ s3 = s1 +:+ (s2 +:+ s3).
Proof.
  induction s1 as [|c s1 IH]; [done|].
  change (String c ((s1 +:+ s2) +:+ s3) = String c (s1 +:+ (s2 +:+ s3))). by rewrite IH.
Qed.

Lemma concat_cons x xs :
  String.concat EmptyString (x :: xs) = x +:+ String.concat EmptyString xs.
Proof.
  destruct xs; [|reflexivity].
  change (x = x +:+ EmptyString). by rewrite append_nil_r.
Qed.


(** One turn of the loop appends the clipped text of its node. *)
Lemma groupStep_elementText doc range v t :
  elementText (groupStep doc range v t) = elementText v +:+ clippedText doc range t.
Proof. unfold groupStep, clippedText. by repeat case_bool_decide. Qed.

(** The text the loop builds for a group: the clipped texts of its nodes,
    one after the other. *)
Lemma group_elementText doc range v ts :
  elementText (foldl (groupStep doc range) v ts)
  = elementText v +:+ String.concat EmptyString (clippedText doc range <$> ts).
Proof.
  revert v. induction ts as [|t ts IH]; intros v; simpl foldl.
  - by rewrite append_nil_r.
  - rewrite IH, groupStep_elementText, fmap_cons, concat_cons. apply append_assoc.
Qed.

(** C8: in one call, the map of groups has one entry per block element,
    no Text node stands in two entries or twice in one, every node of an
    entry is a Text node of the range whose nearest block-level ancestor is
    the key of the entry, and every paragraph returned is built from an
    entry of its own: its text is what the loop appends for the nodes of
    that entry, one after the other, trimmed, so that no Text node
    contributes to two paragraphs. *)
Theorem text_node_in_one_group doc range contents :
  let textNodes := _getTextNodesInRange doc range in
  let groups := blockElementToTextNodes doc textNodes in
  NoDup groups.*1 ∧
  NoDup (concat groups.*2) ∧
  Forall (λ g, Forall (λ t, t ∈ textNodes ∧ nearestBlockAncestor doc t g.1) g.2) groups ∧
  ∃ used, used `sublist_of` groups ∧
          Forall2 (λ g p, paragraphOfGroup doc range contents g.2 = Some p ∧
                          text p = Js.trim (String.concat EmptyString
                                              (clippedText doc range <$> g.2)))
            used (_getParagraphsFromRange doc range contents).
Proof.
  simpl.
  destruct (blockElementToTextNodes_groups doc (_getTextNodesInRange doc range))
    as (Hkeys & Hperm & Hown).
  split; [done|]. split; [|split].
  - rewrite Hperm. apply NoDup_filter, getTextNodesInRange_NoDup.
  - rewrite Forall_forall in Hown |- *. intros g Hg.
    specialize (Hown g Hg). rewrite Forall_forall in Hown |- *. intros t Ht.
    split; [|by apply findContainingBlockElement_nearest, Hown].
    assert (t ∈ concat (blockElementToTextNodes doc (_getTextNodesInRange doc range)).*2) as Hin.
    { apply list_elem_of_In, in_concat. exists g.2.
      rewrite <- !list_elem_of_In. split; [|done].
      apply list_elem_of_fmap. by exists g. }
    rewrite Hperm in Hin. by apply list_elem_of_filter in Hin as [_ ?].
  - assert (∀ gs : NodeMap (list NodeRef), ∃ used, used `sublist_of` gs ∧
              Forall2 (λ g p, paragraphOfGroup doc range contents g.2 = Some p ∧
                              text p = Js.trim (String.concat EmptyString
                                                  (clippedText doc range <$> g.2)))
                used [])
      as Hnone by (intros gs; exists []; split; [apply sublist_nil_l|constructor]).
    unfold _getParagraphsFromRange.
    destruct (Js.falsy _); [apply Hnone|].
    destruct (ownerDocument _); [|apply Hnone].
    case_bool_decide; [apply Hnone|].
    destruct (omap_sources (λ entry : NodeRef * list NodeRef,
                              paragraphOfGroup doc range contents entry.2)
                (blockElementToTextNodes doc (_getTextNodesInRange doc range)))
      as (used & Hsub & Hall).
    exists used. split; [done|].
    eapply Forall2_impl; [exact Hall|]. intros g p Hp. split; [done|].
    apply paragraphOfGroup_text in Hp as (_ & _ & ->).
    by rewrite group_elementText.
Qed.






(** ** The offsets of a group *)

Lemma groupStep_nodes doc range v t :
  firstTextNode (groupStep doc range v t)
    = Some (default t (firstTextNode v)) ∧
  lastTextNode (groupStep doc range v t) = Some t.
Proof. unfold groupStep. by repeat case_bool_decide; destruct (firstTextNode v). Qed.

(** X11: the variables the loop leaves for a group in which the start container
    stands first or not at all: the first and the last node of the group;
    as first offset, the start offset when the group begins with the start
    container, and 0 otherwise; as last offset, the end offset when the
    group ends with the end container, the length of the last node when
    that is another node, and 0 when the group is the start container
    alone. *)
Theorem group_offsets doc range t0 rest :
  startContainer range ∉ rest →
  let ts := t0 :: rest in
  let v := foldl (groupStep doc range) groupVarsInit ts in
  let tl := List.last ts t0 in
  firstTextNode v = Some t0 ∧
  lastTextNode v = Some tl ∧
  firstTextOffset v = (if bool_decide (t0 = startContainer range) then startOffset range else 0) ∧
  lastTextOffset v =
    (if bool_decide (tl = startContainer range) then 0
     else if bool_decide (tl = endContainer range) then endOffset range
     else String.length (textContent doc tl)).
Proof.
  cbv zeta. induction rest as [|t rest IH] using rev_ind; intros Hs.
  - simpl. unfold groupStep. simpl.
    repeat case_bool_decide; simpl; repeat split; try done; naive_solver.
  - rewrite not_elem_of_app, list_elem_of_singleton in Hs. destruct Hs as [Hrest Ht].
    destruct (IH Hrest) as (Hf & Hl & Hfo & Hlo). clear IH.
    rewrite app_comm_cons, foldl_snoc, last_last.
    set (v := foldl (groupStep doc range) groupVarsInit (t0 :: rest)) in *.
    destruct (groupStep_nodes doc range v t) as [Hf' Hl'].
    rewrite Hf', Hl', Hf. split; [done|]. split; [done|].
    unfold groupStep. rewrite (bool_decide_false (t = startContainer range)) by done.
    rewrite Hf. destruct (decide (t = endContainer range)) as [Ee|Ee].
    + rewrite !(bool_decide_true (t = endContainer range)) by done. by split.
    + rewrite !(bool_decide_false (t = endContainer range)) by done. simpl.
      split; [|done]. destruct (decide (t0 = t)) as [->|E0].
      * rewrite bool_decide_true by auto. by rewrite bool_decide_false.
      * rewrite bool_decide_false; [exact Hfo|]. intros [?|[= ?]]; done.
Qed.

(** ** The order of the groups *)

Lemma StronglySorted_sublist {A} (R : relation A) (k l : list A) :
  k `sublist_of` l → StronglySorted R l → StronglySorted R k.
Proof.
  induction 1 as [|x k l Hkl IH|x k l Hkl IH]; intros Hl; [done|..];
    apply StronglySorted_cons in Hl as [Hx Hl].
  - apply StronglySorted_cons. split; [|by apply IH].
    rewrite Forall_forall in Hx |- *. intros y Hy. apply Hx. by eapply elem_of_sublist.
  - by apply IH.
Qed.

Lemma group_heads (gs : NodeMap (list NodeRef)) :
  Forall (λ g, g.2 ≠ []) gs → Forall2 (λ g t, head g.2 = Some t) gs (omap head gs.*2).
Proof.
  induction 1 as [|[b [|t ts]] gs Hg Hgs IH]; [constructor|done|].
  simpl. by constructor.
Qed.

Lemma groups_nonempty doc ts : Forall (λ g, g.2 ≠ []) (blockElementToTextNodes doc ts).
Proof.
  induction ts as [|t ts IH] using rev_ind; [constructor|].
  rewrite blockElementToTextNodes_snoc. unfold groupTextNode.
  destruct (_findContainingBlockElement doc t) as [b|]; [|done].
  destruct (push_text_node (blockElementToTextNodes doc ts) b t)
    as [(ma & vs & mb & Em & Hk & ->)|(Hk & ->)].
  - rewrite Em in IH. rewrite !Forall_app, !Forall_cons in *.
    destruct IH as (? & ? & ?). repeat split; try done. simpl. by destruct vs.
  - rewrite Forall_app. split; [done|]. by repeat constructor.
Qed.

Lemma group_heads_sublist doc ts :
  omap head (blockElementToTextNodes doc ts).*2 `sublist_of` ts.
Proof.
  induction ts as [|t ts IH] using rev_ind; [constructor|].
  pose proof (groups_nonempty doc ts) as Hgs.
  rewrite blockElementToTextNodes_snoc. unfold groupTextNode.
  destruct (_findContainingBlockElement doc t) as [b|]; [|by apply sublist_inserts_r].
  destruct (push_text_node (blockElementToTextNodes doc ts) b t)
    as [(ma & vs & mb & Em & Hk & ->)|(Hk & ->)].
  - rewrite Em in IH, Hgs. apply Forall_app in Hgs as (_ & Hgs).
    apply Forall_cons in Hgs as (Hvs & _). simpl in Hvs.
    apply sublist_inserts_r.
    rewrite !fmap_app, !omap_app in *. simpl in *.
    by destruct vs.
  - rewrite fmap_app, omap_app. simpl. by apply sublist_app.
Qed.

(** X12: the groups stand in the map, and so are visited by the second
    loop, in the tree order of the first Text node of each. *)
Theorem groups_in_reading_order doc range :
  let groups := blockElementToTextNodes doc (_getTextNodesInRange doc range) in
  ∃ firsts, Forall2 (λ g t, head g.2 = Some t) groups firsts ∧
            StronglySorted precedes firsts.
Proof.
  cbv zeta.
  exists (omap head (blockElementToTextNodes doc (_getTextNodesInRange doc range)).*2).
  split.
  - apply group_heads, groups_nonempty.
  - eapply StronglySorted_sublist; [apply group_heads_sublist|apply walked_nodes].
Qed.

(** ** The search for a block element *)

(** X13: [_findContainingBlockElement] returns null exactly when no
    element above the Text node matches a block selector. *)
Theorem no_block_element_above doc t :
  _findContainingBlockElement doc t = None ↔
  ∀ e, e ≠ [] → properAncestor e t → matches doc e blockSelectors = false.
Proof.
  split; [apply findContainingBlockElement_none|].
  intros Hnone. destruct (_findContainingBlockElement doc t) as [b|] eqn:E; [|done].
  apply findContainingBlockElement_nearest in E as (Hb & Hanc & Hm & _).
  by rewrite Hnone in Hm.
Qed.

(** ** Ranges without a block element, and the order of a range *)

(** X14: the range the two methods extract from never has its start after
    its end, whatever the order of the two locations. *)
Theorem extracted_range_is_ordered {CFI : Type} (newEpubCFI : string → Exc CFI)
    (toRange : CFI → Node → Exc (option Range)) doc start end_ range :
  visibleRange newEpubCFI toRange doc start end_ = Return (Some range) →
  isAfter (rangeStart range) (rangeEnd range) = false.
Proof. apply visibleRange_ordered. Qed.

(** * The layout of a rendition *)

Lemma jsOr_truthy a b : truthy b = true → truthy (jsOr a b) = true.
Proof. unfold jsOr. by destruct (truthy a) eqn:E. Qed.

Lemma jsOr_first a b : truthy a = true → jsOr a b = a.
Proof. unfold jsOr. by intros ->. Qed.

Lemma jsOr_second a b : truthy a = false → jsOr a b = b.
Proof. unfold jsOr. by intros ->. Qed.

Lemma determined_flow_truthy settings metadata :
  truthy (Props.flow (determineLayoutProperties settings metadata)) = true.
Proof. simpl. by apply jsOr_truthy. Qed.

(** X15: whatever the settings and the metadata hold, every layout property
    [determineLayoutProperties] returns but [viewport] is truthy, and
    [viewport] is truthy or the empty string; a truthy setting is returned
    as it is, whatever the metadata say. *)
Theorem layout_properties_are_set settings metadata :
  let p := determineLayoutProperties settings metadata in
  Forall (λ property : Props.t → JsValue,
            truthy (property p) = true ∧
            (truthy (property settings) = true → property p = property settings))
    [Props.layout; Props.spread; Props.orientation; Props.flow; Props.minSpreadWidth;
     Props.direction] ∧
  (truthy (Props.viewport p) = true ∨ Props.viewport p = JString EmptyString).
Proof.
  cbv zeta. split.
  - rewrite !Forall_cons, Forall_nil.
    repeat split; simpl; try (by apply jsOr_truthy);
      intros H; by rewrite (jsOr_first (jsOr _ _)), jsOr_first by by rewrite ?jsOr_first.
  - simpl. unfold jsOr. destruct (truthy (Props.viewport metadata)) eqn:E; auto.
Qed.

Lemma _flow_cases x :
  ((x = JString "scrolled" ∨ x = JString "scrolled-doc" ∨ x = JString "scrolled-continuous")
   ∧ _flow x = JString "scrolled") ∨
  ((x = JString "auto" ∨ x = JString "paginated") ∧ _flow x = JString "paginated") ∨
  ((x ≠ JString "scrolled" ∧ x ≠ JString "scrolled-doc" ∧ x ≠ JString "scrolled-continuous" ∧
    x ≠ JString "auto" ∧ x ≠ JString "paginated") ∧ _flow x = x).
Proof.
  unfold _flow.
  destruct (decide (x = JString "scrolled")) as [->|?]; [by auto|].
  destruct (decide (x = JString "scrolled-doc")) as [->|?]; [by auto 6|].
  destruct (decide (x = JString "scrolled-continuous")) as [->|?]; [by auto 6|].
  destruct (decide (x = JString "auto")) as [->|?]; [by auto 6|].
  destruct (decide (x = JString "paginated")) as [->|?]; [by auto 6|].
  rewrite !bool_decide_false by done. simpl. by auto 10.
Qed.

Lemma _flow_normal x :
  _flow x ∉ [JString "auto"; JString "scrolled-doc"; JString "scrolled-continuous"].
Proof.
  rewrite !elem_of_cons, elem_of_nil.
  destruct (_flow_cases x) as [[_ ->]|[[_ ->]|[(_ & ? & ? & ? & _) ->]]];
    intros [?|[?|[?|[]]]]; done.
Qed.

Lemma _flow_truthy x : truthy x = true → truthy (_flow x) = true.
Proof. by destruct (_flow_cases x) as [[_ ->]|[[_ ->]|[H ->]]]. Qed.

Lemma _flow_idemp x : _flow (_flow x) = _flow x.
Proof. destruct (_flow_cases x) as [[_ E]|[[_ E]|[H E]]]; by rewrite !E. Qed.

Lemma flowsOf_flow {P} (this : Layouting P) x :
  Forall (λ g, g = _flow x) (flowsOf (calls (flow this x))).
Proof.
  unfold flow, flowsOf, displayAgain. simpl.
  destruct (_layout this), (hasManager this), (isRendered this),
    (location this) as [[[s|] ? ? ?]|]; simpl; by repeat constructor.
Qed.

(** The layout is handed the name exactly when [this._layout] is set. *)
Lemma layout_flow_called {P} (this : Layouting P) x :
  layout_flow (_flow x) ∈ calls (flow this x) ↔ _layout this = true.
Proof.
  unfold flow, displayAgain. simpl.
  destruct (_layout this), (hasManager this), (isRendered this),
    (location this) as [[[s|] ? ? ?]|]; simpl;
    rewrite ?elem_of_cons, ?elem_of_nil; intuition congruence.
Qed.

(** The manager is handed the name exactly when there is a manager. *)
Lemma manager_updateFlow_called {P} (this : Layouting P) x :
  manager_updateFlow (_flow x) ∈ calls (flow this x) ↔ hasManager this = true.
Proof.
  unfold flow, displayAgain. simpl.
  destruct (_layout this), (hasManager this), (isRendered this),
    (location this) as [[[s|] ? ? ?]|]; simpl;
    rewrite ?elem_of_cons, ?elem_of_nil; intuition congruence.
Qed.

(** X16: [flow] leaves the name it was given in the settings, and hands one and
    the same name to the layout and to the manager: [scrolled] for the
    three scrolled flows, [paginated] for [auto] and [paginated], and the
    given name for any other.  The layout is handed that name exactly when
    [this._layout] is set, and the manager exactly when there is a manager.
    That name is never [auto], [scrolled-doc] or [scrolled-continuous], and
    [flow] hands it over unchanged when it is given that name in turn. *)
Theorem flow_hands_over_one_name {P} (this : Layouting P) x :
  Props.flow (settingsAfter (flow this x)) = x ∧
  ∃ name, Forall (λ g, g = name) (flowsOf (calls (flow this x))) ∧
          (layout_flow name ∈ calls (flow this x) ↔ _layout this = true) ∧
          (manager_updateFlow name ∈ calls (flow this x) ↔ hasManager this = true) ∧
          Forall (λ g, g = name) (flowsOf (calls (flow this name))) ∧
          (name ∉ [JString "auto"; JString "scrolled-doc"; JString "scrolled-continuous"]) ∧
          ((x ∈ [JString "scrolled"; JString "scrolled-doc"; JString "scrolled-continuous"])
           → name = JString "scrolled") ∧
          ((x ∈ [JString "auto"; JString "paginated"]) → name = JString "paginated") ∧
          ((x ∉ [JString "scrolled"; JString "scrolled-doc"; JString "scrolled-continuous";
                 JString "auto"; JString "paginated"]) → name = x).
Proof.
  split; [done|]. exists (_flow x).
  split; [apply flowsOf_flow|].
  split; [apply layout_flow_called|].
  split; [apply manager_updateFlow_called|].
  split; [by pose proof (flowsOf_flow this (_flow x)) as H; rewrite _flow_idemp in H|].
  split; [apply _flow_normal|].
  rewrite !elem_of_cons, !elem_of_nil.
  destruct (_flow_cases x) as [[H E]|[[H E]|[H E]]]; rewrite E;
    repeat split; try done; intros H'; exfalso; intuition (subst; done).
Qed.

(** X17: [flow] called, as [start] calls it, with the flow that
    [determineLayoutProperties] names: what the layout and the manager are
    handed is truthy, it is not
    [auto], [scrolled-doc] or [scrolled-continuous], and it is [paginated]
    when neither the settings nor the metadata name a flow. *)
Theorem started_flow_is_named {P} (this : Layouting P) metadata :
  let properties := determineLayoutProperties (settings this) metadata in
  Forall (λ g, truthy g = true ∧
               (g ∉ [JString "auto"; JString "scrolled-doc"; JString "scrolled-continuous"]) ∧
               (truthy (Props.flow (settings this)) = false →
                truthy (Props.flow metadata) = false → g = JString "paginated"))
    (flowsOf (calls (flow this (Props.flow properties)))).
Proof.
  cbv zeta. eapply Forall_impl; [apply flowsOf_flow|]. intros g ->.
  split; [apply _flow_truthy, determined_flow_truthy|].
  split; [apply _flow_normal|].
  intros H1 H2. simpl. by rewrite (jsOr_second (jsOr _ _)), ?jsOr_second by by rewrite ?jsOr_second.
Qed.

(** ** The location of a rendition *)

Section LocatingFacts.

Context {Percentage : Type}.
Variable locationFromCfi : option string → option Z.
Variable percentageFromLocation : Z → Percentage.
Variable pageFromCfi : option string → Z.
Variable spineFirstIndex spineLastIndex : nat.

Lemma pageOr1_positive p : 1 ≤ pageOr1 p.
Proof. destruct p as [[|n]|]; simpl; lia. Qed.

Lemma located_cases location l :
  located locationFromCfi percentageFromLocation pageFromCfi spineFirstIndex spineLastIndex
    location = Return l →
  (location = [] ∧ l = Located.mk None None false false) ∨
  (∃ s e, location ≠ [] ∧ Located.start l = Some s ∧ Located.end_ l = Some e ∧
          1 ≤ Displayed.page (LocatedEnd.displayed s) ∧
          1 ≤ Displayed.page (LocatedEnd.displayed e)).
Proof.
  unfold located. case_bool_decide as Hlen.
  - intros [= <-]. left. by destruct location.
  - destruct (mjoin (location !! 0)) as [start|]; [|done].
    destruct (mjoin (location !! _)) as [end_|]; [|done].
    destruct (mapping _) as [sm|]; [|done]. destruct (mapping _) as [em|]; [|done].
    intros [= <-]. right. eexists _, _. split; [by intros ->|].
    split; [done|]. split; [done|]. simpl. split; apply pageOr1_positive.
Qed.

Lemma relocate_cases l0 location l1 evs :
  relocate locationFromCfi percentageFromLocation pageFromCfi spineFirstIndex spineLastIndex
    l0 location = Return (l1, evs) →
  (location = [] ∧ l1 = l0 ∧ evs = []) ∨
  (∃ l s e, location ≠ [] ∧ l1 = Some l ∧
            Located.start l = Some s ∧ Located.end_ l = Some e ∧
            evs = [LOCATION_CHANGED (LocatedEnd.index s) (LocatedEnd.href s)
                     (LocatedEnd.cfi s) (LocatedEnd.cfi e) (LocatedEnd.percentage s);
                   RELOCATED l] ∧
            1 ≤ Displayed.page (LocatedEnd.displayed s) ∧
            1 ≤ Displayed.page (LocatedEnd.displayed e)).
Proof.
  unfold relocate.
  destruct (located _ _ _ _ _ location) as [l|] eqn:E; simpl; [|done].
  apply located_cases in E as [[-> ->]|(s & e & Hne & Hs & He & Hps & Hpe)].
  - simpl. intros [= <- <-]. by left.
  - rewrite Hs, He. intros [= <- <-]. right. by exists l, s, e.
Qed.

(** X18: [reportLocation] emits nothing and leaves [this.location] as it is when
    the manager has no section to show; in any other case it stores a
    location with a start and an end, the displayed pages of which are 1 at
    least, and emits two events, [locationChanged] with the two locations
    and then [relocated] with the location it stored. *)
Theorem report_emits_both_events_or_none l0 location l1 evs :
  reportedLocationAfterRAF locationFromCfi percentageFromLocation pageFromCfi
    spineFirstIndex spineLastIndex l0 location = Return (l1, evs) →
  (entries location = [] ∧ l1 = l0 ∧ evs = []) ∨
  (∃ l s e, entries location ≠ [] ∧ l1 = Some l ∧
            Located.start l = Some s ∧ Located.end_ l = Some e ∧
            evs = [LOCATION_CHANGED (LocatedEnd.index s) (LocatedEnd.href s)
                     (LocatedEnd.cfi s) (LocatedEnd.cfi e) (LocatedEnd.percentage s);
                   RELOCATED l] ∧
            1 ≤ Displayed.page (LocatedEnd.displayed s) ∧
            1 ≤ Displayed.page (LocatedEnd.displayed e)).
Proof.
  destruct location as [|result|location]; simpl.
  - intros [= <- <-]. by left.
  - apply relocate_cases.
  - apply relocate_cases.
Qed.

(** X19: [reportLocation] keeps [this.location] well formed: when it was
    undefined or had both a start and an end, so it is afterwards. *)
Theorem reported_location_has_both_ends l0 location l1 evs :
  hasBothEnds l0 →
  reportedLocationAfterRAF locationFromCfi percentageFromLocation pageFromCfi
    spineFirstIndex spineLastIndex l0 location = Return (l1, evs) →
  hasBothEnds l1.
Proof.
  intros H0 H.
  assert ((l1 = l0 ∧ evs = []) ∨
          ∃ l s e, l1 = Some l ∧ Located.start l = Some s ∧ Located.end_ l = Some e) as Hc.
  { destruct location as [|result|location]; simpl in H.
    - injection H as <- <-. by left.
    - apply relocate_cases in H as [(_ & ? & ?)|(l & s & e & _ & ? & ? & ? & _)]; eauto 10.
    - apply relocate_cases in H as [(_ & ? & ?)|(l & s & e & _ & ? & ? & ? & _)]; eauto 10. }
  destruct Hc as [[-> _]|(l & s & e & -> & Hs & He)]; [done|].
  simpl. by rewrite Hs, He.
Qed.

End LocatingFacts.

Lemma displayAgain_completes {P} (this : Layouting P) :
  hasBothEnds (location this) →
  (displayAgain this).2 = Return () ∧
  ((displayAgain this).1 = [] ∨ ∃ target, (displayAgain this).1 = [manager_clear; display target]).
Proof.
  unfold displayAgain, hasBothEnds.
  destruct (hasManager this && isRendered this); [|by auto].
  destruct (location this) as [l|]; [|by auto].
  intros [[s ->] _]. eauto.
Qed.

(** X20: on a location that has both its ends, and on none, [flow] and
    [direction] complete; they clear the manager at most once, and what
    they do then is to display, and nothing after that. *)
Theorem flow_and_direction_complete {P} (this : Layouting P) x :
  hasBothEnds (location this) →
  Forall (λ o, completion o = Return () ∧ clearsToDisplay (calls o))
    [flow this x; direction this x].
Proof.
  intros [Hc Hcalls]%displayAgain_completes.
  rewrite !Forall_cons, Forall_nil. unfold flow, direction, clearsToDisplay. simpl.
  repeat split; try done.
  - destruct Hcalls as [->|[target ->]].
    + left. destruct (_layout this), (hasManager this); simpl;
        rewrite ?elem_of_cons, elem_of_nil; intuition done.
    + right. eexists _, target. rewrite !(assoc_L (++)). split; [done|].
      destruct (_layout this), (hasManager this); simpl;
        rewrite ?elem_of_cons, elem_of_nil; intuition done.
  - destruct Hcalls as [->|[target ->]].
    + left. destruct (hasManager this); simpl;
        rewrite ?elem_of_cons, elem_of_nil; intuition done.
    + right. eexists _, target. split; [done|].
      destruct (hasManager this); simpl;
        rewrite ?elem_of_cons, elem_of_nil; intuition done.
Qed.

(** ** The page text and the location *)

Lemma truthyString_Some s x : truthyString s = Some x → s = Some x.
Proof. destruct s as [s|]; [|done]. simpl. destruct (Js.falsy s); congruence. Qed.

Section TextAndLocation.

Context {CFI Percentage : Type}.
Variable newEpubCFI : string → Exc CFI.
Variable toRange : CFI → Node → Exc (option Range).
Variable locationFromCfi : option string → option Z.
Variable percentageFromLocation : Z → Percentage.
Variable pageFromCfi : option string → Z.
Variable spineFirstIndex spineLastIndex : nat.

(** X21: when [getCurrentViewText] returns a text, its [startCfi] is the [cfi]
    of the start of every location [currentLocation] returns in the same
    state; with one section on the page, [currentLocation] does return a
    location, and the [cfi] of its end is the [endCfi] as well. *)
Theorem view_text_cfis_are_located_cfis m (ds : list (option DisplayedSection.t)) vt :
  currentLocation m
  = Some ((λ d : option DisplayedSection.t, DisplayedSection.base <$> d) <$> ds) →
  getCurrentViewText newEpubCFI toRange (mkRendition (Some m)) = Some vt →
  (∀ l, Rendition_currentLocation locationFromCfi percentageFromLocation pageFromCfi
          spineFirstIndex spineLastIndex (LocationArray ds) = Return (Some l) →
        ∃ s, Located.start l = Some s ∧ LocatedEnd.cfi s = Some (startCfi vt)) ∧
  (length ds = 1 →
   ∃ l s e, Rendition_currentLocation locationFromCfi percentageFromLocation pageFromCfi
              spineFirstIndex spineLastIndex (LocationArray ds) = Return (Some l) ∧
            Located.start l = Some s ∧ Located.end_ l = Some e ∧
            LocatedEnd.cfi s = Some (startCfi vt) ∧ LocatedEnd.cfi e = Some (endCfi vt)).
Proof.
  intros Hloc Hvt. rewrite getCurrentViewText_unfold in Hvt.
  unfold displayedPage in Hvt. simpl in Hvt. rewrite Hloc in Hvt. simpl in Hvt.
  destruct ds as [|[d|] rest]; try done. simpl in Hvt.
  destruct (mapping (DisplayedSection.base d)) as [mp|] eqn:Hm; [|done]. simpl in Hvt.
  destruct (truthyString (mappingStart mp)) as [start|] eqn:Hs; [|done]. simpl in Hvt.
  destruct (truthyString (mappingEnd mp)) as [end_|] eqn:He; [|done]. simpl in Hvt.
  apply truthyString_Some in Hs, He.
  assert (startCfi vt = start ∧ endCfi vt = end_) as [-> ->].
  { destruct (viewsFind m _) as [view|]; [|done]. simpl in Hvt.
    destruct (contents view) as [c|]; [|done]. simpl in Hvt.
    destruct (document c) as [doc|]; [|done]. simpl in Hvt.
    destruct (visibleRange _ _ _ _ _) as [[range|]|]; try done.
    by injection Hvt as <-. }
  split.
  - intros l. unfold Rendition_currentLocation, located. simpl.
    destruct (mjoin _) as [e|]; [|done]. rewrite Hm.
    destruct (mapping (DisplayedSection.base e)) as [em|]; [|done]. simpl.
    intros [= <-]. eexists. split; [done|]. done.
  - intros Hlen. destruct rest; [|done].
    unfold Rendition_currentLocation, located. simpl. rewrite Hm. simpl.
    eexists _, _, _. split; [done|]. split; [done|]. split; [done|]. done.
Qed.

End TextAndLocation.

(** * Highlighting an element *)

(** A node is contained in the range that selects an element exactly when
    it is the element or lies below it. *)
Lemma selected_contains doc p i x n :
  nodeAt doc x = Some n →
  contained doc (mkRange p i p (i + 1)) x = true ↔ (p ++ [i]) `prefix_of` x.
Proof.
  intros Hx. unfold contained, isAfter, isBefore, position. rewrite Hx. simpl.
  generalize (nodeLength n). intros len. split.
  - intros [H1 H2]%andb_true_iff. apply is_Gt in H1. apply is_Lt in H2.
    destruct (decide (p `prefix_of` x)) as [[r ->]|Hpx].
    + rewrite <- (assoc_L (++)), lexCompare_app in H1, H2.
      destruct r as [|j r]; simpl in H1, H2.
      { by destruct i. }
      exists r. rewrite <- (assoc_L (++)). simpl. do 2 f_equal.
      destruct (Nat.compare_spec j i) as [->| |]; [done|done|].
      destruct (Nat.compare_spec j (i + 1)); [by destruct (r ++ [len])|lia|done].
    + destruct (decide (x `prefix_of` p)) as [[k ->]|Hxp].
      * rewrite <- (assoc_L (++)), lexCompare_app in H1.
        destruct k as [|k0 k]; [by destruct Hpx; rewrite app_nil_r|].
        simpl in H1. destruct k0; [by destruct (k ++ [i])|done].
      * destruct (apart_split x p Hxp Hpx) as (q & a & b & x' & p' & -> & -> & Hab).
        rewrite <- !(assoc_L (++)) in H1, H2. simpl in H1, H2.
        rewrite lexCompare_apart in H1, H2 by done.
        destruct (Nat.compare_spec a b); done.
  - intros [r ->]. rewrite <- !(assoc_L (++)), !lexCompare_app. simpl.
    rewrite Nat.compare_refl.
    destruct (Nat.compare_spec i (i + 1)); [lia| |lia].
    by destruct r.
Qed.

(** The text of the range that selects an element is the text of the
    element. *)
Lemma selected_text doc p i n :
  nodeAt doc (p ++ [i]) = Some n →
  rangeToString doc (mkRange p i p (i + 1)) = textOfElement doc (p ++ [i]).
Proof.
  intros Hn. unfold textOfElement, rangeToString. rewrite Hn. simpl.
  assert (isText doc p = false) as ->.
  { unfold isText. rewrite nodeAt_app in Hn.
    destruct (nodeAt doc p) as [[d|tag cs]|]; done. }
  rewrite andb_false_r. change (EmptyString +:+ ?s) with s. rewrite append_nil_r.
  do 2 f_equal. apply sorted_same_elements.
  - apply StronglySorted_filter, textNodesOf_sorted.
  - apply StronglySorted_fmap with (R1 := precedes); [|apply textNodesOf_sorted].
    intros x y Hxy. unfold precedes. by rewrite lexCompare_app.
  - intros x. rewrite list_elem_of_filter, list_elem_of_fmap, textNodesOf_spec. split.
    + intros [Hc [d Hd]]. apply Is_true_true in Hc.
      apply (selected_contains doc p i x _ Hd) in Hc as [r ->].
      exists r. split; [done|]. apply textNodesOf_spec. exists d.
      by rewrite nodeAt_app, Hn in Hd.
    + intros (r & -> & [d Hd]%textNodesOf_spec).
      assert (nodeAt doc ((p ++ [i]) ++ r) = Some (Text d)) as Hx
        by by rewrite nodeAt_app, Hn.
      split; [|by eauto]. apply Is_true_true.
      apply (selected_contains doc p i _ _ Hx). by exists r.
Qed.

Section HighlightingFacts.

Context {CFI Data Callback Annotation : Type}.
Variable newEpubCFI : string → Exc CFI.
Variable spinePos : CFI → nat.
Variable toRange : CFI → option Node → Exc (option Range).
Variable windowDocument : Node.
Variable emptyData : Data.
Variable noop : Callback.
Variable highlight : string → Data → Callback → string → Styles → Exc Annotation.

(** X22: when the promise of [highlightElement] is resolved, the CFI has
    resolved to a range of the document of the first visible view of its
    section; what is highlighted is the range that selects one element, the
    start container of that range or, when that is a Text node, its parent;
    the element is not the Document, and the text of the range handed to
    [cfiFromRange] is the whole text of the element. *)
Theorem highlighted_range_is_the_whole_element visible cfi data cb className styles a :
  (∀ c doc range, toRange c (Some doc) = Return (Some range) →
                  is_Some (nodeAt doc (startContainer range))) →
  highlightElement newEpubCFI spinePos toRange windowDocument emptyData noop highlight
    visible cfi data cb className styles = Resolved a →
  ∃ views c view contents doc range element elementRange cfiRange,
    visible = Some views ∧ newEpubCFI cfi = Return c ∧
    head (filter (λ view, spinePos c = VisibleView.index view) views) = Some view ∧
    VisibleView.contents view = Some contents ∧ document contents = Some doc ∧
    toRange c (Some doc) = Return (Some range) ∧
    element = (if isText doc (startContainer range)
               then removelast (startContainer range) else startContainer range) ∧
    element ≠ [] ∧
    selectNode element = Return elementRange ∧
    rangeToString doc elementRange = textOfElement doc element ∧
    cfiFromRange contents elementRange = Return cfiRange ∧
    highlight cfiRange (default emptyData data) (default noop cb)
      (default "epubjs-hl"%string className)
      (Object_assign defaultStyles (default [] styles)) = Return a.
Proof.
  intros Hnode. unfold highlightElement.
  destruct visible as [views|]; [|done].
  destruct (newEpubCFI cfi) as [c|] eqn:Hc; [|done]. simpl.
  destruct (filter _ views) as [|view found] eqn:Hfound; [done|].
  destruct (VisibleView.contents view) as [contents|] eqn:Hcontents; [|done].
  destruct (toRange c (document contents)) as [[range|]|] eqn:Hrange; try done. simpl.
  destruct (document contents) as [doc|] eqn:Hdoc; simpl.
  2: { by destruct (if isText _ _ then _ else _). }
  destruct (Hnode c doc range Hrange) as [n Hn].
  destruct (if isText doc (startContainer range)
            then parentElement (startContainer range)
            else Some (startContainer range)) as [element|] eqn:Helement; [|done].
  destruct (selectNode element) as [elementRange|] eqn:Hselect; [|done]. simpl.
  destruct (cfiFromRange contents elementRange) as [cfiRange|] eqn:Hcfi; [|done]. simpl.
  destruct (highlight _ _ _ _ _) as [annotation|] eqn:Hhl; [|done]. simpl.
  intros [= <-].
  assert (element ≠ []) as Hne.
  { intros ->. by unfold selectNode in Hselect. }
  assert (element = (if isText doc (startContainer range)
                     then removelast (startContainer range) else startContainer range))
    as Helem.
  { destruct (isText doc (startContainer range)); [|congruence].
    destruct (parentElement_cases (startContainer range)) as [[E _]|[E _]];
      rewrite E in Helement; congruence. }
  assert (is_Some (nodeAt doc element)) as [m Hm].
  { rewrite Helem. destruct (isText doc (startContainer range)); [|by eauto].
    destruct (startContainer range) as [|i0 s0] using rev_ind; [by eauto|].
    rewrite removelast_last. rewrite nodeAt_app in Hn.
    destruct (nodeAt doc s0); [by eauto|done]. }
  exists views, c, view, contents, doc, range, element, elementRange, cfiRange.
  rewrite Hfound. repeat (split; [done|]). split; [|done].
  unfold selectNode in Hselect.
  destruct element as [|i0 e0] using rev_ind; [done|].
  unfold parentNode in Hselect. rewrite removelast_last, last_last in Hselect.
  destruct (e0 ++ [i0]) eqn:E; [by destruct e0|]. rewrite <- E in *.
  injection Hselect as <-. by eapply selected_text.
Qed.

End HighlightingFacts.

(** * The further properties at work *)
Section FurtherOnTheBook.

Import Sample Book.

Lemma alphaBeta_spans : spansTextNodes alphaBeta (mkRange firstText 3 secondText 5).
Proof.
  split; [by eexists|]. split; [eexists; split; [reflexivity|simpl; lia]|].
  split; [reflexivity|discriminate].
Defined.


(** From [ha text.] into [Beta ]: the two Text nodes, and none between. *)
Lemma span_walked_nodes_witness :
  spansTextNodes alphaBeta (mkRange firstText 3 secondText 5) ∧
  _getTextNodesInRange alphaBeta (mkRange firstText 3 secondText 5)
  = firstText :: filter (λ t, contained alphaBeta (mkRange firstText 3 secondText 5) t)
                  (textNodesOf alphaBeta) ++ [secondText].
Proof.
  split; [exact alphaBeta_spans|].
  apply (span_walked_nodes alphaBeta (mkRange firstText 3 secondText 5) alphaBeta_spans).
Defined.



(** A group of the start container and a node behind it. *)
Lemma group_offsets_witness :
  (Leaflet.hello ∉ [Leaflet.bold]) ∧
  let v := foldl (groupStep Leaflet.emphasis (mkRange Leaflet.hello 2 Leaflet.world 3))
             groupVarsInit [Leaflet.hello; Leaflet.bold] in
  firstTextNode v = Some Leaflet.hello ∧ lastTextNode v = Some Leaflet.bold ∧
  firstTextOffset v = 2 ∧ lastTextOffset v = 4.
Proof.
  assert (Leaflet.hello ∉ [Leaflet.bold]) as H by (intros [= ]%list_elem_of_singleton).
  split; [exact H|].
  apply (group_offsets Leaflet.emphasis (mkRange Leaflet.hello 2 Leaflet.world 3)
           Leaflet.hello [Leaflet.bold] H).
Defined.

Lemma reversed_locations_give_an_empty_page_witness :
  isAfter (secondText, 5) (firstText, 3) = true ∧
  getCurrentViewText (Sample.newEpubCFI table) Sample.toRange (view alphaBeta "b5" "a3")
    = Some (mkViewText EmptyString "b5" "a3") ∧
  getCurrentViewParagraphs (Sample.newEpubCFI table) Sample.toRange
    (view alphaBeta "b5" "a3") (mkOptions None) = Some [].
Proof.
  split; [reflexivity|].
  apply (reversed_locations_give_an_empty_page (Sample.newEpubCFI table) Sample.toRange
           (view alphaBeta "b5" "a3") (mkOptions None) alphaBeta (contentsOf alphaBeta)
           "b5" "a3" (mkRange firstText 3 firstText 3)
           (Some (secondText, 5)) (Some (firstText, 3))
           (mkRange secondText 5 secondText 5) (mkRange firstText 3 firstText 3));
    reflexivity.
Defined.

Lemma page_inside_one_text_node_witness :
  visibleRange (Sample.newEpubCFI table) Sample.toRange alphaBeta "a3" "a8"
    = Return (Some (mkRange firstText 3 firstText 8)) ∧
  isText alphaBeta firstText = true ∧
  getCurrentViewText (Sample.newEpubCFI table) Sample.toRange (view alphaBeta "a3" "a8")
    = Some (mkViewText "ha te" "a3" "a8") ∧
  getCurrentViewParagraphs (Sample.newEpubCFI table) Sample.toRange
    (view alphaBeta "a3" "a8") (mkOptions None) = Some [].
Proof.
  split; [reflexivity|]. split; [reflexivity|].
  apply (page_inside_one_text_node (Sample.newEpubCFI table) Sample.toRange
           (view alphaBeta "a3" "a8") (mkOptions None) alphaBeta (contentsOf alphaBeta)
           "a3" "a8" (mkRange firstText 3 firstText 8)); reflexivity.
Defined.

(** [ABCDEFGHIJ] in two [span] elements: text, and no paragraph. *)
Lemma inline_only_page_has_no_paragraph_witness :
  Forall (λ t, _findContainingBlockElement noBlocks t = None) [firstText; secondText] ∧
  getCurrentViewText (Sample.newEpubCFI table) Sample.toRange (view noBlocks "a0" "b5")
    = Some (mkViewText "ABCDEFGHIJ" "a0" "b5") ∧
  getCurrentViewParagraphs (Sample.newEpubCFI table) Sample.toRange
    (view noBlocks "a0" "b5") (mkOptions None) = Some [].
Proof.
  split; [repeat constructor|].
  apply (inline_only_page_has_no_paragraph (Sample.newEpubCFI table) Sample.toRange
           (view noBlocks "a0" "b5") (mkOptions None) noBlocks (contentsOf noBlocks)
           "a0" "b5" (mkRange firstText 0 secondText 5) eq_refl eq_refl).
  repeat constructor.
Defined.

Lemma extracted_range_is_ordered_witness :
  visibleRange (Sample.newEpubCFI table) Sample.toRange alphaBeta "b5" "a3"
    = Return (Some (mkRange firstText 3 firstText 3)) ∧
  isAfter (firstText, 3) (firstText, 3) = false.
Proof.
  split; [reflexivity|].
  apply (extracted_range_is_ordered (Sample.newEpubCFI table) Sample.toRange
           alphaBeta "b5" "a3" (mkRange firstText 3 firstText 3)).
  reflexivity.
Defined.

(** One section on the page, pages 2 and 3 of 7. *)
Lemma report_emits_both_events_or_none_witness :
  reportedLocationAfterRAF Leaflet.locationOf Leaflet.percentageOf
    Leaflet.pageOf 0 9 None (LocationArray [Some Leaflet.chapter])
  = Return (Some Leaflet.chapterLocated,
            [LOCATION_CHANGED 0 "chapter.xhtml" (Some "a3"%string) (Some "b5"%string)
               (Some 40%Z);
             RELOCATED Leaflet.chapterLocated]) ∧
  ∃ l s e, Some Leaflet.chapterLocated = Some l ∧
           Located.start l = Some s ∧ Located.end_ l = Some e ∧
           1 ≤ Displayed.page (LocatedEnd.displayed s) ∧
           1 ≤ Displayed.page (LocatedEnd.displayed e).
Proof.
  split; [reflexivity|].
  destruct (report_emits_both_events_or_none Leaflet.locationOf
              Leaflet.percentageOf Leaflet.pageOf 0 9 None
              (LocationArray [Some Leaflet.chapter])
              (Some Leaflet.chapterLocated) _ eq_refl)
    as [(_ & [=] & _)|(l & s & e & _ & Hl & Hs & He & _ & Hps & Hpe)].
  exists l, s, e. repeat split; assumption.
Defined.

Lemma reported_location_has_both_ends_witness :
  hasBothEnds (None : option (Located.t Z)) ∧
  reportedLocationAfterRAF Leaflet.locationOf Leaflet.percentageOf
    Leaflet.pageOf 0 9 None (LocationArray [Some Leaflet.chapter])
  = Return (Some Leaflet.chapterLocated,
            [LOCATION_CHANGED 0 "chapter.xhtml" (Some "a3"%string) (Some "b5"%string)
               (Some 40%Z);
             RELOCATED Leaflet.chapterLocated]) ∧
  hasBothEnds (Some Leaflet.chapterLocated).
Proof.
  split; [exact I|]. split; [reflexivity|].
  apply (reported_location_has_both_ends Leaflet.locationOf
           Leaflet.percentageOf Leaflet.pageOf 0 9 None
           (LocationArray [Some Leaflet.chapter]) (Some Leaflet.chapterLocated) _ I eq_refl).
Defined.

(** A rendered manager and a known location: clear, then display. *)
Lemma flow_and_direction_complete_witness :
  hasBothEnds (location Leaflet.rendered) ∧
  calls (flow Leaflet.rendered (JString "scrolled-doc"))
  = [layout_flow (JString "scrolled"); manager_applyLayout;
     manager_updateFlow (JString "scrolled"); manager_clear; display (Some "a3"%string)] ∧
  Forall (λ o, completion o = Return () ∧ clearsToDisplay (calls o))
    [flow Leaflet.rendered (JString "scrolled-doc");
     direction Leaflet.rendered (JString "scrolled-doc")].
Proof.
  assert (hasBothEnds (location Leaflet.rendered)) as H
    by (simpl; split; eexists; reflexivity).
  split; [exact H|]. split; [reflexivity|].
  apply (flow_and_direction_complete Leaflet.rendered (JString "scrolled-doc") H).
Defined.

Lemma view_text_cfis_are_located_cfis_witness :
  getCurrentViewText (Sample.newEpubCFI table) Sample.toRange
    (mkRendition (Some Leaflet.oneSection))
  = Some (mkViewText "ha text.Beta " "a3" "b5") ∧
  Rendition_currentLocation Leaflet.locationOf Leaflet.percentageOf
    Leaflet.pageOf 0 9 (LocationArray [Some Leaflet.chapter])
  = Return (Some Leaflet.chapterLocated) ∧
  ∃ l s e,
    Rendition_currentLocation Leaflet.locationOf Leaflet.percentageOf
      Leaflet.pageOf 0 9 (LocationArray [Some Leaflet.chapter]) = Return (Some l) ∧
    Located.start l = Some s ∧ Located.end_ l = Some e ∧
    LocatedEnd.cfi s = Some "a3"%string ∧ LocatedEnd.cfi e = Some "b5"%string.
Proof.
  split; [reflexivity|]. split; [reflexivity|].
  apply (proj2 (view_text_cfis_are_located_cfis (Sample.newEpubCFI table) Sample.toRange
           Leaflet.locationOf Leaflet.percentageOf Leaflet.pageOf 0 9
           Leaflet.oneSection [Some Leaflet.chapter] (mkViewText "ha text.Beta " "a3" "b5")
           eq_refl eq_refl)).
  reflexivity.
Defined.

Lemma toRange_in_document :
  ∀ c doc range, Leaflet.toRangeIn c (Some doc) = Return (Some range) →
                 is_Some (nodeAt doc (startContainer range)).
Proof.
  intros [bp|] doc range H; simpl in H; [|discriminate].
  destruct (decide (is_Some (nodeAt doc bp.1))) as [Hn|]; [|discriminate].
  injection H as <-. exact Hn.
Defined.

(** A location in the Text node of the first paragraph: the paragraph
    element is highlighted, all of [Alpha text.]. *)
Lemma highlighted_range_is_the_whole_element_witness :
  highlightElement (Sample.newEpubCFI table) (λ _, 0) Leaflet.toRangeIn alphaBeta () ()
    Leaflet.annotate Leaflet.oneView "a3" None None None None
  = Resolved ("/0/0:0,/0/0:1"%string, defaultStyles) ∧
  rangeToString alphaBeta (mkRange [0; 0] 0 [0; 0] 1) = "Alpha text."%string ∧
  ∃ views c view contents doc range element elementRange cfiRange,
    Leaflet.oneView = Some views ∧ Sample.newEpubCFI table "a3" = Return c ∧
    head (filter (λ view, 0 = VisibleView.index view) views) = Some view ∧
    VisibleView.contents view = Some contents ∧ document contents = Some doc ∧
    Leaflet.toRangeIn c (Some doc) = Return (Some range) ∧
    element = (if isText doc (startContainer range)
               then removelast (startContainer range) else startContainer range) ∧
    element ≠ [] ∧
    selectNode element = Return elementRange ∧
    rangeToString doc elementRange = textOfElement doc element ∧
    cfiFromRange contents elementRange = Return cfiRange ∧
    Leaflet.annotate cfiRange () () "epubjs-hl"%string (Object_assign defaultStyles [])
    = Return ("/0/0:0,/0/0:1"%string, defaultStyles).
Proof.
  split; [reflexivity|]. split; [reflexivity|].
  apply (highlighted_range_is_the_whole_element (Sample.newEpubCFI table) (λ _, 0)
           Leaflet.toRangeIn alphaBeta () () Leaflet.annotate Leaflet.oneView "a3"
           None None None None ("/0/0:0,/0/0:1"%string, defaultStyles)
           toRange_in_document).
  reflexivity.
Defined.

End FurtherOnTheBook.
